(** * StockVibe: the subscription-and-broadcast engine of [backend/main.py]

    A shallow embedding of the WebSocket registry ([subscriptions],
    [ws_to_symbol]), of the session handler [websocket_endpoint], of the price
    helper [get_latest_price_sync] and of the background task [poll_loop],
    followed by the properties of the specification that concern them.

    Conventions of the embedding:
    - a [WebSocket] is an opaque handle: the code uses connection objects
      only as set members and dictionary keys;
    - a symbol is a [string], the key type that [Dict[str, set]] declares;
    - Python's [None] as a dictionary value is [None : option string], so a
      lookup in [ws_to_symbol] has type [option (option string)]: absent,
      present with [None], or present with a symbol;
    - a call that may raise returns a [result];
    - the insertion order of [subscriptions] is not tracked: the keys are
      enumerated by [elements (dom _)], and no statement below depends on the
      order in which the symbols of one tick are visited; the registries of
      the examples are built by inserting their keys in the order in which
      [keys] lists them, so that the ticks of the examples visit the symbols
      as the code does. *)

From Stdlib Require Import PrimFloat ZArith.
From stdpp Require Import gmap strings list fin_maps fin_sets relations.

Open Scope string_scope.

#[local] Set Warnings "-clear-no-such-hyp".

(** ** Values *)

Definition WebSocket := positive.

Inductive exn :=
| WebSocketDisconnect
| Exception (what : string).

Inductive result (A : Type) :=
| Returned (a : A)
| Raised (e : exn).
Arguments Returned {A} a.
Arguments Raised {A} e.

(** The three outbound JSON objects, before [json.dumps]. A [price] of [None]
    is JSON [null]. *)
Inductive message :=
| Subscribed (symbol : string)
| PriceUpdate (symbol : string) (price : option float) (ts : Z)
| ErrorMsg (error : string).

(** Truth value of an [Optional[str]]: [None] and [""] are false. *)
Definition truthy (o : option string) : bool :=
  match o with
  | Some s => bool_decide (s ≠ "")
  | None => false
  end.

(** ** The registry (lines 49-52) *)

Record Registry := mkRegistry {
  subscriptions : gmap string (gset WebSocket);
  ws_to_symbol : gmap WebSocket (option string)
}.

Definition empty_registry : Registry := mkRegistry ∅ ∅.

Module DefaultDict.
(** [subscriptions] is a [defaultdict(set)]: indexing a missing key stores
    a fresh empty set under it and yields that set. *)
Definition getitem (k : string) (d : gmap string (gset WebSocket)) : gset WebSocket :=
  default ∅ (d !! k).

(** [d[k]] evaluated for its effect on the dictionary only. *)
Definition touch (k : string) (d : gmap string (gset WebSocket)) :=
  <[k := getitem k d]> d.

(** [d[k].discard(ws)] *)
Definition discard (k : string) (ws : WebSocket) (d : gmap string (gset WebSocket)) :=
  <[k := getitem k d ∖ {[ws]}]> d.

(** [d[k].add(ws)] *)
Definition add (k : string) (ws : WebSocket) (d : gmap string (gset WebSocket)) :=
  <[k := getitem k d ∪ {[ws]}]> d.
End DefaultDict.

(** [ws_to_symbol.get(ws)], and the value of [ws_to_symbol.pop(ws, None)]. *)
Definition get (ws : WebSocket) (m : gmap WebSocket (option string)) : option string :=
  default None (m !! ws).

(** The connections in [sym]'s set, as a read that creates nothing. *)
Definition subscribers (r : Registry) (sym : string) : gset WebSocket :=
  DefaultDict.getitem sym (subscriptions r).

(** Line 246: [ws_to_symbol[ws] = None]. *)
Definition accept (ws : WebSocket) (r : Registry) : Registry :=
  mkRegistry (subscriptions r) (<[ws := None]> (ws_to_symbol r)).

(** Lines 261-267: the registry update of a subscribe command. *)
Definition subscribe (ws : WebSocket) (symbol : string) (r : Registry) : Registry :=
  let prev := get ws (ws_to_symbol r) in
  let subs :=
    match prev with
    | Some p => if truthy prev then DefaultDict.discard p ws (subscriptions r)
                else subscriptions r
    | None => subscriptions r
    end in
  mkRegistry (DefaultDict.add symbol ws subs) (<[ws := Some symbol]> (ws_to_symbol r)).

(** Lines 262-264 alone: the connection leaves the set of the symbol recorded
    for it. A subscribe command runs them before line 266 indexes
    [subscriptions] with the new symbol. *)
Definition discard_prev (ws : WebSocket) (r : Registry) : Registry :=
  let prev := get ws (ws_to_symbol r) in
  match prev with
  | Some p => if truthy prev
              then mkRegistry (DefaultDict.discard p ws (subscriptions r)) (ws_to_symbol r)
              else r
  | None => r
  end.

(** Lines 274-276: cleanup in the [except WebSocketDisconnect] handler. *)
Definition disconnect_cleanup (ws : WebSocket) (r : Registry) : Registry :=
  let symbol := get ws (ws_to_symbol r) in
  let m := delete ws (ws_to_symbol r) in
  match symbol with
  | Some s => if truthy symbol then mkRegistry (DefaultDict.discard s ws (subscriptions r)) m
              else mkRegistry (subscriptions r) m
  | None => mkRegistry (subscriptions r) m
  end.

(** Lines 231-232: cleanup of [poll_loop] after a failed send of [sym]'s
    payload to [ws]. *)
Definition remove_dead (sym : string) (ws : WebSocket) (r : Registry) : Registry :=
  mkRegistry (DefaultDict.discard sym ws (subscriptions r)) (delete ws (ws_to_symbol r)).

(** Line 219: [list(subscriptions.keys())], each key once. The code lists
    them in the order of their insertion, which a [gmap] does not record. *)
Definition keys (r : Registry) : list string := elements (dom (subscriptions r)).

(** ** The session handler [websocket_endpoint] (lines 242-277) *)

(** What [json.loads] makes of one received text. The two fields the handler
    reads carry strings, as the protocol and the key type of [subscriptions]
    have them; [None] stands for a key that is absent or [null] (for the
    symbol also another false value: [0], [false], an empty array or object;
    for the action any value that is not a string). A symbol that is a
    non-empty array or object is true at line 258 and cannot be hashed at
    line 266: it has a constructor of its own. True numbers and booleans,
    which become keys as strings do, are left out. *)
Inductive inbound :=
| Malformed                                    (* [json.loads] raises *)
| NotObject                                    (* valid JSON without [.get]: array, number, ... *)
| Object (action symbol : option string)       (* [obj.get("action")], [obj.get("symbol")] *)
| ObjectUnhashable (action : option string).   (* the symbol is a non-empty array or object *)

(** Outcome of [await ws.receive_text()]. *)
Inductive received :=
| Text (m : inbound)
| ReceiveRaised (e : exn).

(** A handler is in its receive loop ([Open]), has left it through the
    [except WebSocketDisconnect] clause ([Disconnected]), or was ended by an
    exception that no clause catches ([Died]). *)
Inductive status :=
| Open
| Disconnected
| Died (e : exn).

(** Lines 272-276: an exception leaving the [while] loop. Only
    [WebSocketDisconnect] runs the cleanup. *)
Definition escape (e : exn) (ws : WebSocket) (r : Registry) : Registry * list message * status :=
  match e with
  | WebSocketDisconnect => (disconnect_cleanup ws r, [], Disconnected)
  | Exception _ => (r, [], Died e)
  end.

(** [await ws.send_text(json.dumps(msg))] inside the loop; [sent] is the
    outcome of the call. The list holds what the client was sent. *)
Definition reply (sent : result unit) (ws : WebSocket) (msg : message) (r : Registry)
  : Registry * list message * status :=
  match sent with
  | Returned _ => (r, [msg], Open)
  | Raised e => escape e ws r
  end.

(** Lines 249-270: one iteration of the loop on a received text. *)
Definition on_text (sent : result unit) (ws : WebSocket) (m : inbound) (r : Registry)
  : Registry * list message * status :=
  match m with
  | Malformed => reply sent ws (ErrorMsg "invalid json") r
  | NotObject => escape (Exception "AttributeError") ws r
  | Object action symbol =>
      if bool_decide (action = Some "subscribe") then
        if negb (truthy symbol) then reply sent ws (ErrorMsg "no symbol provided") r
        else
          let s := default "" symbol in
          reply sent ws (Subscribed s) (subscribe ws s r)
      else reply sent ws (ErrorMsg "unknown action") r
  | ObjectUnhashable action =>
      if bool_decide (action = Some "subscribe") then
        (* lines 262-264 have run when [subscriptions[symbol]] raises *)
        escape (Exception "TypeError") ws (discard_prev ws r)
      else reply sent ws (ErrorMsg "unknown action") r
  end.

(** Lines 247-276: one iteration of the loop. *)
Definition session_step (rx : received) (sent : result unit) (ws : WebSocket) (r : Registry)
  : Registry * list message * status :=
  match rx with
  | Text m => on_text sent ws m r
  | ReceiveRaised e => escape e ws r
  end.

(** ** The price helper [get_latest_price_sync] (lines 195-209) *)

Module yf.
(** What the helper observes of a [DataFrame]: whether it is empty, and the
    outcome of [float(intraday["Close"].iloc[-1])]. *)
Record DataFrame := {
  is_empty : bool;
  last_close : result float
}.

(** The two entries of [ticker.info] that are read; [None] is an absent
    key or a [None] value. *)
Record Info := {
  currentPrice : option float;
  regularMarketPrice : option float
}.

(** A ticker object: the outcomes of [history(period="1d", interval="1m")]
    and of the property [info]. *)
Record Ticker := {
  history : result DataFrame;
  info : result Info
}.
End yf.

(** Truth value of an optional number: [None] and zero are false. *)
Definition number_truthy (v : option float) : bool :=
  match v with
  | Some f => negb (f =? 0)%float
  | None => false
  end.

(** [a or b] *)
Definition py_or (a b : option float) : option float :=
  if number_truthy a then a else b.

(** [float(v)]: raises [TypeError] on [None]. *)
Definition to_float (v : option float) : result float :=
  match v with
  | Some f => Returned f
  | None => Raised (Exception "TypeError")
  end.

(** Lines 198-203: the value returned from inside the first [try], if any. *)
Definition intraday_price (ticker : yf.Ticker) : option float :=
  match yf.history ticker with
  | Returned intraday =>
      if negb (yf.is_empty intraday) then
        match yf.last_close intraday with
        | Returned p => Some p
        | Raised _ => None
        end
      else None
  | Raised _ => None
  end.

(** Lines 205-209: the second [try]. *)
Definition info_price (ticker : yf.Ticker) : option float :=
  match yf.info ticker with
  | Returned i =>
      match to_float (py_or (yf.currentPrice i) (yf.regularMarketPrice i)) with
      | Returned p => Some p
      | Raised _ => None
      end
  | Raised _ => None
  end.

(** [Ticker] is [yf.Ticker], called on line 196 before the first [try]. *)
Definition get_latest_price_sync (Ticker : string → result yf.Ticker) (symbol : string)
  : result (option float) :=
  match Ticker symbol with
  | Raised e => Raised e
  | Returned ticker =>
      match intraday_price ticker with
      | Some p => Returned (Some p)
      | None => Returned (info_price ticker)
      end
  end.

(** ** One iteration of [poll_loop], run without interruption (lines 218-234) *)

(** The surroundings of one tick: the quote library, the successive readings
    [int(time.time())], and the outcome of each [send_text]. *)
Record World := {
  Ticker : string → result yf.Ticker;
  time_time : nat → Z;
  send_text : WebSocket → message → result unit
}.

(** Lines 211-213: the helper run in the executor; its value or its exception
    comes back unchanged. *)
Definition get_latest_price (w : World) (symbol : string) : result (option float) :=
  get_latest_price_sync (Ticker w) symbol.

(** What a tick does to the outside: calls of the quote helper, and sends
    with their success. *)
Inductive event :=
| Fetch (sym : string)
| Send (ws : WebSocket) (msg : message) (delivered : bool).

Definition returned {A} (x : result A) : bool :=
  match x with
  | Returned _ => true
  | Raised _ => false
  end.

(** Lines 226-232: the payload of [sym] goes to each connection of the
    snapshot [conns]; a failed send removes the connection. *)
Fixpoint broadcast (w : World) (sym : string) (payload : message)
    (conns : list WebSocket) (r : Registry) : Registry * list event :=
  match conns with
  | [] => (r, [])
  | ws :: conns' =>
      let sent := send_text w ws payload in
      let r1 := if returned sent then r else remove_dead sym ws r in
      let out := broadcast w sym payload conns' r1 in
      (out.1, Send ws payload (returned sent) :: out.2)
  end.

(** Line 225: [subscriptions[sym]] read through the [defaultdict]. *)
Definition read_subscribers (sym : string) (r : Registry) : Registry :=
  mkRegistry (DefaultDict.touch sym (subscriptions r)) (ws_to_symbol r).

(** Lines 222-232 over the snapshot [symbols]; [n] counts the clock readings
    made so far. The third component is the exception that reached line 233,
    if any. *)
Fixpoint poll_symbols (w : World) (n : nat) (symbols : list string) (r : Registry)
  : Registry * list event * option exn :=
  match symbols with
  | [] => (r, [], None)
  | sym :: rest =>
      match get_latest_price w sym with
      | Raised e => (r, [Fetch sym], Some e)
      | Returned price =>
          let payload := PriceUpdate sym price (time_time w n) in
          let conns := elements (subscribers r sym) in
          let sent := broadcast w sym payload conns (read_subscribers sym r) in
          let out := poll_symbols w (S n) rest sent.1 in
          (out.1.1, Fetch sym :: sent.2 ++ out.1.2, out.2)
      end
  end.

(** Lines 218-234. *)
Definition poll_once (w : World) (r : Registry) : Registry * list event * option exn :=
  let symbols := keys r in
  match symbols with
  | [] => (r, [], None)
  | _ :: _ => poll_symbols w 0 symbols r
  end.

(** The symbols for which the quote helper was called, in order. *)
Definition fetches (tr : list event) : list string :=
  omap (λ e, match e with Fetch sym => Some sym | Send _ _ _ => None end) tr.

(** ** The whole process: handlers and poll loop interleaved at their awaits *)

(** Where [poll_loop] is suspended: in [asyncio.sleep] (line 235), in
    [get_latest_price(sym)] (line 223) with the symbols still to visit, or in
    [ws.send_text] (line 228) with the rest of the snapshot [conns]. *)
Inductive task :=
| Sleeping
| Fetching (sym : string) (rest : list string)
| Sending (sym : string) (payload : message) (ws : WebSocket)
    (conns : list WebSocket) (rest : list string).

Record System := mkSystem {
  registry : Registry;
  sessions : gmap WebSocket status;
  poll : task
}.

Definition initial : System := mkSystem empty_registry ∅ Sleeping.

(** Head of the [for sym in symbols] loop. *)
Definition next_symbol (symbols : list string) : task :=
  match symbols with
  | [] => Sleeping
  | sym :: rest => Fetching sym rest
  end.

(** Head of the [for ws in conns] loop. *)
Definition next_conn (sym : string) (payload : message) (conns : list WebSocket)
    (rest : list string) : task :=
  match conns with
  | [] => next_symbol rest
  | ws :: conns' => Sending sym payload ws conns' rest
  end.

(** What resumes a coroutine. The code between two awaits runs without
    interruption (one event loop, one thread). *)
Inductive action :=
| Connect (ws : WebSocket)
| Receive (ws : WebSocket) (rx : received) (sent : result unit)
| Wake
| PriceReady (price : result (option float)) (now : Z)
| SendDone (sent : result unit).

Definition step (a : action) (σ : System) : option System :=
  match a with
  | Connect ws =>
      match sessions σ !! ws with
      | None => Some (mkSystem (accept ws (registry σ)) (<[ws := Open]> (sessions σ)) (poll σ))
      | Some _ => None
      end
  | Receive ws rx sent =>
      match sessions σ !! ws with
      | Some Open =>
          let out := session_step rx sent ws (registry σ) in
          Some (mkSystem out.1.1 (<[ws := out.2]> (sessions σ)) (poll σ))
      | _ => None
      end
  | Wake =>
      match poll σ with
      | Sleeping => Some (mkSystem (registry σ) (sessions σ) (next_symbol (keys (registry σ))))
      | _ => None
      end
  | PriceReady (Returned price) now =>
      match poll σ with
      | Fetching sym rest =>
          let conns := elements (subscribers (registry σ) sym) in
          Some (mkSystem (read_subscribers sym (registry σ)) (sessions σ)
                  (next_conn sym (PriceUpdate sym price now) conns rest))
      | _ => None
      end
  | PriceReady (Raised _) _ =>
      match poll σ with
      | Fetching _ _ => Some (mkSystem (registry σ) (sessions σ) Sleeping)
      | _ => None
      end
  | SendDone sent =>
      match poll σ with
      | Sending sym payload ws conns rest =>
          let r := if returned sent then registry σ else remove_dead sym ws (registry σ) in
          Some (mkSystem r (sessions σ) (next_conn sym payload conns rest))
      | _ => None
      end
  end.

Fixpoint run (acts : list action) (σ : System) : option System :=
  match acts with
  | [] => Some σ
  | a :: acts' =>
      match step a σ with
      | Some σ' => run acts' σ'
      | None => None
      end
  end.

Definition reachable (σ : System) : Prop := ∃ acts, run acts initial = Some σ.

(** A run in which no handler is resumed while [poll_loop] is suspended in a
    [send_text], that is, between the snapshot [conns] of a symbol and the
    last send of its payload. *)
Definition is_sending (t : task) : bool :=
  match t with
  | Sending _ _ _ _ _ => true
  | _ => false
  end.

Definition of_session (a : action) : bool :=
  match a with
  | Connect _ | Receive _ _ _ => true
  | _ => false
  end.

Definition step_serial (a : action) (σ : System) : option System :=
  if of_session a && is_sending (poll σ) then None else step a σ.

Fixpoint run_serial (acts : list action) (σ : System) : option System :=
  match acts with
  | [] => Some σ
  | a :: acts' =>
      match step_serial a σ with
      | Some σ' => run_serial acts' σ'
      | None => None
      end
  end.

(** ** The properties of the specification, as predicates *)

(** Section 3: a connection is in at most one symbol's set. *)
Definition at_most_one_symbol (r : Registry) : Prop :=
  ∀ c s1 s2, c ∈ subscribers r s1 → c ∈ subscribers r s2 → s1 = s2.

(** Section 3: the two maps agree. [get] is [None] both for a connection
    mapped to [None] and for one without an entry. *)
Definition maps_agree (r : Registry) : Prop :=
  ∀ c, match get c (ws_to_symbol r) with
       | Some s => c ∈ subscribers r s ∧ ∀ s', s' ≠ s → c ∉ subscribers r s'
       | None => ∀ s', c ∉ subscribers r s'
       end.

Definition consistent (r : Registry) : Prop :=
  at_most_one_symbol r ∧ maps_agree r.

(** The connection is nowhere in the registry. *)
Definition forgotten (ws : WebSocket) (r : Registry) : Prop :=
  ws_to_symbol r !! ws = None ∧ ∀ sym, ws ∉ subscribers r sym.

(** No entry of [ws_to_symbol] holds the empty string: line 258 keeps it out. *)
Definition no_empty_symbol (r : Registry) : Prop :=
  ∀ c, get c (ws_to_symbol r) ≠ Some "".

(** Section 4.1, [currentSymbols()]: the snapshot holds exactly the symbols
    with a subscriber. *)
Definition snapshot_exact (r : Registry) : Prop :=
  ∀ sym, sym ∈ keys r ↔ subscribers r sym ≠ ∅.

(** Section 4.2, step 1: no subscriber anywhere, no call of the quote helper. *)
Definition idle_without_subscribers (w : World) (r : Registry) : Prop :=
  (∀ sym, subscribers r sym = ∅) → fetches (poll_once w r).1.2 = [].

(** Section 4.2: the Quote Provider fails for a symbol whose ticker object
    was built: the intraday request raises, comes back empty or its last
    close cannot be read, and [info] raises or holds no price. *)
Definition no_intraday (t : yf.Ticker) : Prop :=
  (∃ e, yf.history t = Raised e)
  ∨ ∃ df, yf.history t = Returned df
          ∧ (yf.is_empty df = true ∨ ∃ e, yf.last_close df = Raised e).

Definition provider_fails (t : yf.Ticker) : Prop :=
  no_intraday t
  ∧ ((∃ e, yf.info t = Raised e)
     ∨ ∃ i, yf.info t = Returned i
            ∧ number_truthy (yf.currentPrice i) = false
            ∧ yf.regularMarketPrice i = None).

(** The Quote Provider succeeds with the price [p]: the last close of the
    intraday frame or, without one, a price of [info]. *)
Definition provider_quotes (t : yf.Ticker) (p : float) : Prop :=
  (∃ df, yf.history t = Returned df ∧ yf.is_empty df = false
         ∧ yf.last_close df = Returned p)
  ∨ (no_intraday t
     ∧ ∃ i, yf.info t = Returned i
            ∧ ((yf.currentPrice i = Some p ∧ (p =? 0)%float = false)
               ∨ (number_truthy (yf.currentPrice i) = false
                  ∧ yf.regularMarketPrice i = Some p))).


(** The symbol a price update is about. *)
Definition price_symbol (m : message) : option string :=
  match m with
  | PriceUpdate sym _ _ => Some sym
  | _ => None
  end.

(** ** The invariant of the runs in which a broadcast is not interleaved *)

(** The connections that the poll loop still has to send to, with the symbol
    whose snapshot they come from. *)
Definition pending (t : task) : option (string * list WebSocket) :=
  match t with
  | Sending sym _ ws conns _ => Some (sym, ws :: conns)
  | _ => None
  end.

(** The snapshot held by the poll loop is not stale: none of its connections
    has moved to the set of another symbol. *)
Definition snapshot_fresh (σ : System) : Prop :=
  ∀ sym conns, pending (poll σ) = Some (sym, conns) →
    ∀ c s, c ∈ conns → c ∈ subscribers (registry σ) s → s = sym.

(** Every member of a symbol's set is recorded with that symbol. *)
Definition member_is_recorded (r : Registry) : Prop :=
  ∀ c s, c ∈ subscribers r s → get c (ws_to_symbol r) = Some s.

Definition died (st : status) : bool :=
  match st with
  | Died _ => true
  | _ => false
  end.

(** The handler of the connection has not been ended by an exception that
    skips the cleanup. *)
Definition alive (σ : System) (c : WebSocket) : Prop :=
  ∀ st, sessions σ !! c = Some st → died st = false.

(** What is recorded for a connection whose handler is alive is true of the
    sets. A handler killed between lines 264 and 267 leaves an entry that is
    not. *)
Definition recorded_is_member (σ : System) : Prop :=
  ∀ c s, alive σ c → get c (ws_to_symbol (registry σ)) = Some s →
         s ≠ "" ∧ c ∈ subscribers (registry σ) s.

Definition invariant (σ : System) : Prop :=
  member_is_recorded (registry σ)
  ∧ recorded_is_member σ
  ∧ no_empty_symbol (registry σ)
  ∧ (∀ ws, sessions σ !! ws = None → forgotten ws (registry σ))
  ∧ snapshot_fresh σ.

(** ** Concrete surroundings used in the examples *)

Definition ws1 : WebSocket := 1%positive.
Definition ws2 : WebSocket := 2%positive.

Definition command (symbol : string) : received :=
  Text (Object (Some "subscribe") (Some symbol)).

Definition sent_ok : result unit := Returned ().

(** A ticker whose intraday frame ends at [p]. *)
Definition quoted (p : float) : yf.Ticker :=
  {| yf.history := Returned {| yf.is_empty := false; yf.last_close := Returned p |};
     yf.info := Returned {| yf.currentPrice := Some p; yf.regularMarketPrice := None |} |}.

(** A ticker whose two requests fail. *)
Definition unreachable : yf.Ticker :=
  {| yf.history := Raised (Exception "ConnectionError");
     yf.info := Raised (Exception "ConnectionError") |}.

(** AAPL is quoted, MSFT cannot be fetched, and the constructor refuses any
    other symbol. *)
Definition demo_Ticker (symbol : string) : result yf.Ticker :=
  if bool_decide (symbol = "AAPL") then Returned (quoted 150.25)
  else if bool_decide (symbol = "MSFT") then Returned unreachable
  else Raised (Exception "ValueError").

Definition demo_world : World :=
  {| Ticker := demo_Ticker;
     time_time := λ n, (1700000000 + Z.of_nat n)%Z;
     send_text := λ _ _, sent_ok |}.

(** [ws1] follows AAPL, [ws2] follows MSFT. [ws2] came first, so that the
    keys were inserted in the order in which [keys] lists them. *)
Definition demo_registry : Registry :=
  subscribe ws1 "AAPL" (accept ws1 (subscribe ws2 "MSFT" (accept ws2 empty_registry))).

(** One client connects, subscribes to AAPL and disconnects. *)
Definition come_and_go : list action :=
  [Connect ws1; Receive ws1 (command "AAPL") sent_ok;
   Receive ws1 (ReceiveRaised WebSocketDisconnect) sent_ok].

Definition deserted : Registry := mkRegistry {["AAPL" := ∅]} ∅.

(** Two clients follow AAPL. A tick starts; the snapshot taken for AAPL holds
    both, and the loop is suspended in the send to [ws2] when [ws1] switches
    to MSFT. The send to [ws2] succeeds; the send to [ws1], still in the
    snapshot, then fails. *)
Definition switch_during_broadcast : list action :=
  [Connect ws1; Connect ws2;
   Receive ws1 (command "AAPL") sent_ok; Receive ws2 (command "AAPL") sent_ok;
   Wake; PriceReady (Returned (Some 150.25%float)) 1700000000;
   Receive ws1 (command "MSFT") sent_ok;
   SendDone sent_ok;
   SendDone (Raised (Exception "ConnectionClosed"))].

(** The registry when the last send of [switch_during_broadcast] fails: [ws1]
    has moved to MSFT and is still in the snapshot taken for AAPL. *)
Definition switched : Registry :=
  mkRegistry {["AAPL" := {[ws2]}; "MSFT" := {[ws1]}]}
             {[ws1 := Some "MSFT"; ws2 := Some "AAPL"]}.

(** The registry at the end of [switch_during_broadcast]. *)
Definition left_behind : Registry :=
  mkRegistry {["AAPL" := {[ws2]}; "MSFT" := {[ws1]}]} {[ws2 := Some "AAPL"]}.

(** ** The handler of one connection, from accept to its end (lines 242-277) *)

(** The receive loop over the successive outcomes of [receive_text], each
    paired with the outcome of the reply it triggers; the loop stops at the
    first exception that leaves it. *)
Fixpoint receive_loop (evs : list (received * result unit)) (ws : WebSocket) (r : Registry)
  : Registry * list message * status :=
  match evs with
  | [] => (r, [], Open)
  | (rx, sent) :: evs' =>
      let out := session_step rx sent ws r in
      match out.2 with
      | Open =>
          let rest := receive_loop evs' ws out.1.1 in
          (rest.1.1, (out.1.2 ++ rest.1.2)%list, rest.2)
      | _ => out
      end
  end.

(** Line 243 is outside the [try]: when [ws.accept()] raises, nothing is
    registered and nothing is cleaned up. *)
Definition websocket_endpoint (accepted : result unit) (evs : list (received * result unit))
    (ws : WebSocket) (r : Registry) : Registry * list message * status :=
  match accepted with
  | Returned _ => receive_loop evs ws (accept ws r)
  | Raised e => (r, [], Died e)
  end.

(** The registry [r'] holds of [c] what [r] held: its entry and its
    memberships. *)
Definition untouched (c : WebSocket) (r r' : Registry) : Prop :=
  ws_to_symbol r' !! c = ws_to_symbol r !! c
  ∧ ∀ s, c ∈ subscribers r' s ↔ c ∈ subscribers r s.

(** The registry [r] is [r0] with the session of [ws] on top: [ws] is recorded
    with [v] and is a member of the set that [v] names; nothing else differs. *)
Definition with_session (ws : WebSocket) (v : option string) (r0 r : Registry) : Prop :=
  ws_to_symbol r = <[ws := v]> (ws_to_symbol r0)
  ∧ v ≠ Some ""
  ∧ ∀ c s, c ∈ subscribers r s ↔ c ∈ subscribers r0 s ∨ (c = ws ∧ v = Some s).

(** The messages of the protocol that a handler sends. *)
Definition handler_message (m : message) : Prop :=
  match m with
  | Subscribed symbol => symbol ≠ ""
  | ErrorMsg error => error ∈ ["invalid json"; "no symbol provided"; "unknown action"]
  | PriceUpdate _ _ _ => False
  end.

(** A text that makes the handler run lines 262-267, to their end or not. *)
Definition subscribe_attempt (rx : received) : bool :=
  match rx with
  | Text (Object action symbol) => bool_decide (action = Some "subscribe") && truthy symbol
  | Text (ObjectUnhashable action) => bool_decide (action = Some "subscribe")
  | _ => false
  end.

(** The messages a tick sent, or tried to send, to one connection. *)
Definition sends_to (c : WebSocket) (tr : list event) : list message :=
  omap (λ e, match e with
             | Send ws m _ => if decide (ws = c) then Some m else None
             | Fetch _ => None
             end) tr.

(** The sends of a tick that failed. *)
Definition failed_sends (tr : list event) : list WebSocket :=
  omap (λ e, match e with
             | Send ws _ false => Some ws
             | _ => None
             end) tr.

(** ** The analytics endpoint (lines 141-192) *)

Module pd.
(** A row of the daily history after [dropna()]: its index as
    [strftime("%Y-%m-%d")] prints it, and its [Close]. *)
Record Row := {
  label : string;
  Close : float
}.

(** The numeric routines of pandas, numpy and Python applied to the column:
    their arithmetic is not in the repository. *)
Record Numeric := {
  rolling_mean_last : nat → list float → float;   (* [float(close.rolling(window=k).mean().iloc[-1])] *)
  volatility : list float → option float;         (* [float(returns.std() * 252 ** 0.5)], [None] when [returns] is empty *)
  round : Z → float → float;                      (* [round(x, ndigits)] *)
  series_round : Z → float → float                (* an entry of [close.round(ndigits)] *)
}.
End pd.

Record Analytics := {
  a_symbol : string;
  last_price : float;
  ma_short : option float;
  ma_long : option float;
  volatility_annualized : option float;
  percent_change_period : option float;
  history_labels : list string;
  history_prices : list float
}.

(** The text [str(e)] of an exception. *)
Definition str (e : exn) : string :=
  match e with
  | WebSocketDisconnect => "WebSocketDisconnect"
  | Exception what => what
  end.

(** Lines 141-179. [daily symbol period_days] is the outcome of
    [yf.Ticker(symbol).history(period=..., interval="1d", auto_adjust=False)]
    followed by [dropna()]; none of these calls is inside a [try]. *)
Definition compute_analytics_sync (num : pd.Numeric)
    (daily : string → Z → result (list pd.Row)) (symbol : string) (period_days : Z)
  : result Analytics :=
  match daily symbol period_days with
  | Raised e => Raised e
  | Returned hist =>
      match hist with
      | [] => Raised (Exception ("No historical data available for symbol: " ++ symbol))
      | row :: rows =>
          let close := map pd.Close hist in
          let last_price := List.last close (pd.Close row) in
          let first_price := if bool_decide (0 < length close)%nat then pd.Close row else last_price in
          let ma_short :=
            if bool_decide (5 ≤ length close)%nat then Some (pd.rolling_mean_last num 5 close)
            else None in
          let ma_long :=
            if bool_decide (20 ≤ length close)%nat then Some (pd.rolling_mean_last num 20 close)
            else None in
          let volatility := pd.volatility num close in
          let percent_change :=
            if negb (first_price =? 0)%float
            then Some (((last_price - first_price) / first_price) * 100)%float
            else None in
          Returned
            {| a_symbol := symbol;
               last_price := pd.round num 4 last_price;
               ma_short := pd.round num 4 <$> ma_short;
               ma_long := pd.round num 4 <$> ma_long;
               volatility_annualized := pd.round num 6 <$> volatility;
               percent_change_period := pd.round num 4 <$> percent_change;
               history_labels := map pd.label hist;
               history_prices := map (pd.series_round num 4) close |}
      end
  end.

(** The JSON answer of the endpoint: the analytics or [{"error": ...}]. *)
Inductive analytics_answer :=
| AnalyticsOk (a : Analytics)
| AnalyticsError (error : string).

(** Lines 181-192. *)
Definition get_analytics (num : pd.Numeric)
    (daily : string → Z → result (list pd.Row)) (symbol : string) (period_days : Z)
  : analytics_answer :=
  match compute_analytics_sync num daily symbol period_days with
  | Returned out => AnalyticsOk out
  | Raised e => AnalyticsError (str e)
  end.

(** ** Further concrete surroundings *)

(** Arithmetic stand-ins for the numeric routines, used in examples only. *)
Definition demo_numeric : pd.Numeric :=
  {| pd.rolling_mean_last := λ _ close, List.last close 0%float;
     pd.volatility := λ _, None;
     pd.round := λ _ x, x;
     pd.series_round := λ _ x, x |}.

Definition week : list pd.Row :=
  [ {| pd.label := "2024-01-02"; pd.Close := 100 |};
    {| pd.label := "2024-01-03"; pd.Close := 101 |};
    {| pd.label := "2024-01-04"; pd.Close := 102 |};
    {| pd.label := "2024-01-05"; pd.Close := 103 |};
    {| pd.label := "2024-01-08"; pd.Close := 104 |} ].

(** AAPL has a week of rows, MSFT has none, anything else fails. *)
Definition demo_daily (symbol : string) (period_days : Z) : result (list pd.Row) :=
  if bool_decide (symbol = "AAPL") then Returned week
  else if bool_decide (symbol = "MSFT") then Returned []
  else Raised (Exception "ConnectionError").

(** [ws2] alone, following MSFT. *)
Definition lone_subscriber : Registry := subscribe ws2 "MSFT" (accept ws2 empty_registry).

(** A client subscribes to AAPL, switches to MSFT and disconnects; every
    reply reaches it. *)
Definition browse_and_leave : list (received * result unit) :=
  [(command "AAPL", sent_ok); (command "MSFT", sent_ok);
   (ReceiveRaised WebSocketDisconnect, sent_ok)].

(** A client subscribes to AAPL and then sends a JSON array. *)
Definition subscribe_then_array : list (received * result unit) :=
  [(command "AAPL", sent_ok); (Text NotObject, sent_ok)].

(** [ws1] follows GOOG, for which [demo_Ticker] raises; [ws2] follows AAPL. *)
Definition starved_registry : Registry :=
  subscribe ws2 "AAPL" (accept ws2 (subscribe ws1 "GOOG" (accept ws1 empty_registry))).

(** The state in which [switch_during_broadcast] ends. *)
Definition after_switch : System :=
  mkSystem left_behind {[ws1 := Open; ws2 := Open]} Sleeping.

(** The state in which [come_and_go] ends. *)
Definition after_come_and_go : System :=
  mkSystem deserted {[ws1 := Disconnected]} Sleeping.

(** A world in which every send to [ws2] fails. *)
Definition lossy_world : World :=
  {| Ticker := demo_Ticker;
     time_time := λ n, (1700000000 + Z.of_nat n)%Z;
     send_text := λ ws _, if decide (ws = ws2) then Raised (Exception "ConnectionClosed")
                          else sent_ok |}.

(** * Properties *)

(** ** The registry after each operation *)

Section registry_facts.
Implicit Types (r : Registry) (ws c : WebSocket) (sym s : string).
Implicit Types (d : gmap string (gset WebSocket)).

Lemma getitem_insert k k' (X : gset WebSocket) d :
  DefaultDict.getitem k' (<[k := X]> d) = if decide (k = k') then X else DefaultDict.getitem k' d.
Proof. unfold DefaultDict.getitem. rewrite lookup_insert. by case_decide. Qed.

Lemma getitem_touch k k' d :
  DefaultDict.getitem k' (DefaultDict.touch k d) = DefaultDict.getitem k' d.
Proof. unfold DefaultDict.touch. rewrite getitem_insert. case_decide; by subst. Qed.

Lemma elem_of_getitem_discard c k k' ws d :
  c ∈ DefaultDict.getitem k' (DefaultDict.discard k ws d)
  ↔ c ∈ DefaultDict.getitem k' d ∧ ¬ (k' = k ∧ c = ws).
Proof.
  unfold DefaultDict.discard. rewrite getitem_insert.
  case_decide; subst; set_solver.
Qed.

Lemma elem_of_getitem_add c k k' ws d :
  c ∈ DefaultDict.getitem k' (DefaultDict.add k ws d)
  ↔ c ∈ DefaultDict.getitem k' d ∨ (k' = k ∧ c = ws).
Proof.
  unfold DefaultDict.add. rewrite getitem_insert.
  case_decide; subst; set_solver.
Qed.

Lemma truthy_Some s : truthy (Some s) = true ↔ s ≠ "".
Proof. simpl. by rewrite bool_decide_eq_true. Qed.

Lemma truthy_inv o : truthy o = true → ∃ s, o = Some s ∧ s ≠ "".
Proof. destruct o as [s|]; [|done]. rewrite truthy_Some. eauto. Qed.

Lemma subscribers_accept ws r s : subscribers (accept ws r) s = subscribers r s.
Proof. done. Qed.

Lemma subscribers_read sym r s : subscribers (read_subscribers sym r) s = subscribers r s.
Proof. apply getitem_touch. Qed.

Lemma elem_of_subscribers_remove_dead c s sym ws r :
  c ∈ subscribers (remove_dead sym ws r) s ↔ c ∈ subscribers r s ∧ ¬ (s = sym ∧ c = ws).
Proof. apply elem_of_getitem_discard. Qed.

Lemma elem_of_subscribers_disconnect c s ws r :
  c ∈ subscribers (disconnect_cleanup ws r) s
  ↔ c ∈ subscribers r s ∧ ¬ (c = ws ∧ get ws (ws_to_symbol r) = Some s ∧ s ≠ "").
Proof.
  unfold disconnect_cleanup, subscribers.
  destruct (get ws (ws_to_symbol r)) as [p|] eqn:Hget; [|naive_solver].
  destruct (truthy (Some p)) eqn:Hp; simpl.
  - apply truthy_Some in Hp. rewrite elem_of_getitem_discard. naive_solver.
  - apply not_true_iff_false in Hp. rewrite truthy_Some in Hp. naive_solver.
Qed.

Lemma elem_of_subscribers_subscribe c s ws sym r :
  c ∈ subscribers (subscribe ws sym r) s
  ↔ (c = ws ∧ s = sym)
    ∨ (c ∈ subscribers r s ∧ ¬ (c = ws ∧ get ws (ws_to_symbol r) = Some s ∧ s ≠ "")).
Proof.
  unfold subscribe, subscribers; simpl. rewrite elem_of_getitem_add.
  destruct (get ws (ws_to_symbol r)) as [p|] eqn:Hget; [|naive_solver].
  destruct (truthy (Some p)) eqn:Hp.
  - apply truthy_Some in Hp. rewrite elem_of_getitem_discard. naive_solver.
  - apply not_true_iff_false in Hp. rewrite truthy_Some in Hp. naive_solver.
Qed.

Lemma ws_to_symbol_disconnect ws r :
  ws_to_symbol (disconnect_cleanup ws r) = delete ws (ws_to_symbol r).
Proof.
  unfold disconnect_cleanup.
  destruct (get ws (ws_to_symbol r)); [destruct (truthy _)|]; done.
Qed.

Lemma elem_of_subscribers_discard_prev c s ws r :
  c ∈ subscribers (discard_prev ws r) s
  ↔ c ∈ subscribers r s ∧ ¬ (c = ws ∧ get ws (ws_to_symbol r) = Some s ∧ s ≠ "").
Proof.
  unfold discard_prev, subscribers.
  destruct (get ws (ws_to_symbol r)) as [p|] eqn:Hget; [|naive_solver].
  destruct (truthy (Some p)) eqn:Hp; simpl.
  - apply truthy_Some in Hp. rewrite elem_of_getitem_discard. naive_solver.
  - apply not_true_iff_false in Hp. rewrite truthy_Some in Hp. naive_solver.
Qed.

Lemma ws_to_symbol_discard_prev ws r :
  ws_to_symbol (discard_prev ws r) = ws_to_symbol r.
Proof.
  unfold discard_prev.
  destruct (get ws (ws_to_symbol r)); [destruct (truthy _)|]; done.
Qed.

Lemma get_insert c ws (v : option string) (m : gmap WebSocket (option string)) :
  get c (<[ws := v]> m) = if decide (ws = c) then v else get c m.
Proof. unfold get. rewrite lookup_insert. by case_decide. Qed.

Lemma get_delete c ws (m : gmap WebSocket (option string)) :
  get c (delete ws m) = if decide (ws = c) then None else get c m.
Proof. unfold get. rewrite lookup_delete. by case_decide. Qed.

Lemma get_Some c s (m : gmap WebSocket (option string)) :
  get c m = Some s ↔ m !! c = Some (Some s).
Proof. unfold get. destruct (m !! c) as [[?|]|]; naive_solver. Qed.

(** No operation removes a key of [subscriptions]. *)
Lemma dom_discard k ws d : dom (DefaultDict.discard k ws d) = {[k]} ∪ dom d.
Proof. apply dom_insert_L. Qed.

Lemma dom_add k ws d : dom (DefaultDict.add k ws d) = {[k]} ∪ dom d.
Proof. apply dom_insert_L. Qed.

Lemma dom_accept ws r : dom (subscriptions (accept ws r)) = dom (subscriptions r).
Proof. done. Qed.

Lemma dom_subscribe ws sym r :
  {[sym]} ∪ dom (subscriptions r) ⊆ dom (subscriptions (subscribe ws sym r)).
Proof.
  unfold subscribe; simpl. rewrite dom_add.
  destruct (get ws (ws_to_symbol r)); [destruct (truthy _)|];
    rewrite ?dom_discard; set_solver.
Qed.

Lemma dom_disconnect ws r :
  dom (subscriptions r) ⊆ dom (subscriptions (disconnect_cleanup ws r)).
Proof.
  unfold disconnect_cleanup.
  destruct (get ws (ws_to_symbol r)); [destruct (truthy _)|]; simpl;
    rewrite ?dom_discard; set_solver.
Qed.

Lemma dom_discard_prev ws r :
  dom (subscriptions r) ⊆ dom (subscriptions (discard_prev ws r)).
Proof.
  unfold discard_prev.
  destruct (get ws (ws_to_symbol r)); [destruct (truthy _)|]; simpl;
    rewrite ?dom_discard; set_solver.
Qed.

Lemma dom_remove_dead sym ws r :
  dom (subscriptions r) ⊆ dom (subscriptions (remove_dead sym ws r)).
Proof. unfold remove_dead; simpl. rewrite dom_discard. set_solver. Qed.

Lemma dom_read sym r :
  dom (subscriptions r) ⊆ dom (subscriptions (read_subscribers sym r)).
Proof. unfold read_subscribers, DefaultDict.touch; simpl. rewrite dom_insert_L. set_solver. Qed.

Lemma elem_of_keys sym r : sym ∈ keys r ↔ sym ∈ dom (subscriptions r).
Proof. unfold keys. apply elem_of_elements. Qed.

Lemma subscribers_nonempty_key sym r : subscribers r sym ≠ ∅ → sym ∈ dom (subscriptions r).
Proof.
  unfold subscribers, DefaultDict.getitem. intros Hne.
  apply elem_of_dom. destruct (subscriptions r !! sym); [eauto|done].
Qed.
End registry_facts.

(** ** Subscribing *)

Section subscribing.
Implicit Types (r : Registry) (ws c : WebSocket) (sym s : string).
Implicit Types (d : gmap string (gset WebSocket)).

Lemma add_add k ws d : DefaultDict.add k ws (DefaultDict.add k ws d) = DefaultDict.add k ws d.
Proof.
  unfold DefaultDict.add. rewrite getitem_insert, decide_True by done.
  rewrite insert_insert_eq. f_equal. set_solver.
Qed.

Lemma add_discard_add k ws d :
  DefaultDict.add k ws (DefaultDict.discard k ws (DefaultDict.add k ws d)) = DefaultDict.add k ws d.
Proof.
  unfold DefaultDict.add, DefaultDict.discard.
  rewrite !getitem_insert, !decide_True by done.
  rewrite !insert_insert_eq. f_equal.
  apply set_eq. intros c. destruct (decide (c = ws)); set_solver.
Qed.

Lemma lookup_subscribe ws sym r :
  ws_to_symbol (subscribe ws sym r) !! ws = Some (Some sym).
Proof. unfold subscribe; simpl. apply lookup_insert_eq. Qed.

Lemma get_subscribe c ws sym r :
  get c (ws_to_symbol (subscribe ws sym r))
  = if decide (ws = c) then Some sym else get c (ws_to_symbol r).
Proof. unfold subscribe; simpl. apply get_insert. Qed.
End subscribing.

(** C6. Subscribing a connection to the symbol it has just been subscribed to
    changes neither [subscriptions] nor [ws_to_symbol]: the registry after two
    consecutive subscriptions is the registry after one. *)
Theorem subscribe_idempotent (ws : WebSocket) (symbol : string) (r : Registry) :
  subscribe ws symbol (subscribe ws symbol r) = subscribe ws symbol r.
Proof.
  unfold subscribe at 1.
  rewrite get_subscribe, decide_True by done.
  unfold subscribe; simpl. rewrite insert_insert_eq. f_equal.
  destruct (bool_decide (symbol ≠ "")).
  - apply add_discard_add.
  - apply add_add.
Qed.

(** C7. When [ws_to_symbol] records symbol [A] for connection [C], subscribing
    [C] to a different symbol [B] takes [C] out of [A]'s set and nothing
    else, puts [C] into [B]'s set, and records [B] for [C]; afterwards [C] is
    not in [A]'s set. *)
Theorem resubscribe_replaces (r : Registry) (C : WebSocket) (A B : string) :
  ws_to_symbol r !! C = Some (Some A) → A ≠ "" → A ≠ B →
  subscribers (subscribe C B r) A = subscribers r A ∖ {[C]}
  ∧ subscribers (subscribe C B r) B = subscribers r B ∪ {[C]}
  ∧ ws_to_symbol (subscribe C B r) !! C = Some (Some B)
  ∧ (C ∉ subscribers (subscribe C B r) A)
  ∧ (C ∈ subscribers (subscribe C B r) B).
Proof.
  intros HA Hne HAB. apply get_Some in HA.
  assert (∀ c s, c ∈ subscribers (subscribe C B r) s
                 ↔ (c = C ∧ s = B) ∨ (c ∈ subscribers r s ∧ ¬ (c = C ∧ s = A))) as Hmem.
  { intros c s. rewrite elem_of_subscribers_subscribe, HA. naive_solver. }
  split_and!.
  - apply set_eq. intros c. rewrite Hmem. set_solver.
  - apply set_eq. intros c. rewrite Hmem. set_solver.
  - apply lookup_subscribe.
  - rewrite Hmem. naive_solver.
  - rewrite Hmem. naive_solver.
Qed.

Lemma resubscribe_replaces_witness :
  subscribers (subscribe ws1 "MSFT" (subscribe ws1 "AAPL" (accept ws1 empty_registry))) "AAPL" = ∅
  ∧ ws1 ∈ subscribers (subscribe ws1 "MSFT" (subscribe ws1 "AAPL" (accept ws1 empty_registry))) "MSFT".
Proof.
  pose proof (resubscribe_replaces (subscribe ws1 "AAPL" (accept ws1 empty_registry))
                ws1 "AAPL" "MSFT") as H.
  destruct H as (HA & _ & _ & _ & HB); [reflexivity | done | done |].
  split; [|exact HB]. rewrite HA. by vm_compute.
Defined.


(** ** The session handler *)

Lemma escape_dom e ws r :
  dom (subscriptions r) ⊆ dom (subscriptions (escape e ws r).1.1).
Proof. destruct e; simpl; [apply dom_disconnect | done]. Qed.

Lemma reply_dom sent ws msg r :
  dom (subscriptions r) ⊆ dom (subscriptions (reply sent ws msg r).1.1).
Proof. destruct sent; simpl; [done | apply escape_dom]. Qed.

Lemma session_step_dom rx sent ws r :
  dom (subscriptions r) ⊆ dom (subscriptions (session_step rx sent ws r).1.1).
Proof.
  destruct rx as [[| |action symbol|action]|e]; unfold session_step, on_text;
    repeat case_match; auto using escape_dom, reply_dom.
  - etrans; [|apply reply_dom]. etrans; [|apply dom_subscribe]. set_solver.
  - etrans; [apply dom_discard_prev | apply escape_dom].
Qed.



Lemma on_text_subscribe sent ws sym r :
  sym ≠ "" →
  on_text sent ws (Object (Some "subscribe") (Some sym)) r
  = reply sent ws (Subscribed sym) (subscribe ws sym r).
Proof.
  intros Hsym. unfold on_text.
  rewrite bool_decide_eq_true_2 by done.
  by rewrite (proj2 (truthy_Some sym) Hsym).
Qed.

(** A text that parses to something other than an object ends the handler
    with an exception that skips the cleanup: nothing is sent and the
    connection keeps its place in the registry. *)
Lemma not_object_ends_handler sent ws r :
  session_step (Text NotObject) sent ws r = (r, [], Died (Exception "AttributeError")).
Proof. done. Qed.

(** ** The keys of [subscriptions] *)

Lemma step_dom a σ σ' :
  step a σ = Some σ' →
  dom (subscriptions (registry σ)) ⊆ dom (subscriptions (registry σ')).
Proof.
  destruct a as [ws|ws rx sent| |[price|e] now|sent]; simpl; intros Hstep;
    repeat case_match; simplify_eq; simpl;
    first [ done | apply session_step_dom
          | apply (dom_read _ (registry _)) | apply (dom_remove_dead _ _ (registry _)) ].
Qed.

Lemma run_dom acts σ σ' :
  run acts σ = Some σ' →
  dom (subscriptions (registry σ)) ⊆ dom (subscriptions (registry σ')).
Proof.
  revert σ. induction acts as [|a acts IH]; intros σ Hrun; simpl in Hrun.
  - by simplify_eq.
  - destruct (step a σ) as [σ1|] eqn:Hstep; [|done].
    etrans; [by eapply step_dom | by apply IH].
Qed.

Lemma run_app acts1 acts2 σ :
  run (acts1 ++ acts2) σ = run acts1 σ ≫= run acts2.
Proof.
  revert σ. induction acts1 as [|a acts1 IH]; intros σ; simpl; [done|].
  destruct (step a σ); simpl; eauto.
Qed.

(** C9. Along every run of the process the key set of [subscriptions] only
    grows: a handler's subscribe and disconnect cleanup and the poll loop's
    removal of a dead connection discard connections and never delete a key.
    So a symbol that a connection has subscribed to is in the list the poll
    loop iterates over at every later tick, whatever happened to its
    subscribers in between. *)
Theorem keys_never_shrink (σ0 σ σ' : System) (ws : WebSocket) (sym : string)
    (sent : result unit) (acts : list action) :
  sym ≠ "" →
  step (Receive ws (command sym) sent) σ0 = Some σ →
  run acts σ = Some σ' →
  dom (subscriptions (registry σ)) ⊆ dom (subscriptions (registry σ'))
  ∧ sym ∈ keys (registry σ')
  ∧ step Wake (mkSystem (registry σ') (sessions σ') Sleeping)
    = Some (mkSystem (registry σ') (sessions σ') (next_symbol (keys (registry σ')))).
Proof.
  intros Hsym Hstep Hrun. pose proof (run_dom _ _ _ Hrun) as Hdom.
  split_and!; [done| |done].
  apply elem_of_keys, Hdom.
  unfold step, command in Hstep. repeat case_match; simplify_eq.
  unfold session_step. rewrite on_text_subscribe by done. simpl.
  apply (reply_dom sent ws (Subscribed sym)), dom_subscribe. set_solver.
Qed.

Lemma keys_never_shrink_witness :
  "AAPL" ∈ keys deserted ∧ subscribers deserted "AAPL" = ∅.
Proof.
  split; [|reflexivity].
  pose proof (keys_never_shrink
                (mkSystem (accept ws1 empty_registry) {[ws1 := Open]} Sleeping)
                (mkSystem (subscribe ws1 "AAPL" (accept ws1 empty_registry)) {[ws1 := Open]} Sleeping)
                (mkSystem deserted {[ws1 := Disconnected]} Sleeping)
                ws1 "AAPL" sent_ok
                [Receive ws1 (ReceiveRaised WebSocketDisconnect) sent_ok]) as H.
  destruct H as (_ & H & _); [done | by vm_compute | by vm_compute | exact H].
Defined.

(** ** The price helper *)

(** An exception raised by [yf.Ticker(symbol)], outside both [try] blocks,
    leaves the helper. *)
Lemma constructor_exception_propagates Ticker symbol e :
  Ticker symbol = Raised e → get_latest_price_sync Ticker symbol = Raised e.
Proof. unfold get_latest_price_sync. by intros ->. Qed.

Lemma history_exception_caught ticker e :
  yf.history ticker = Raised e → intraday_price ticker = None.
Proof. unfold intraday_price. by intros ->. Qed.

Lemma info_exception_caught ticker e :
  yf.info ticker = Raised e → info_price ticker = None.
Proof. unfold info_price. by intros ->. Qed.

(** C10, as amended. Once [yf.Ticker(symbol)] has returned a ticker, the
    helper returns a float or [None] and raises nothing: an exception of
    [history] sends it to the fallback, and an exception of [info] makes the
    fallback return [None]. *)
Theorem get_latest_price_sync_returns (Ticker : string → result yf.Ticker)
    (symbol : string) (ticker : yf.Ticker) :
  Ticker symbol = Returned ticker →
  (∃ price : option float, get_latest_price_sync Ticker symbol = Returned price)
  ∧ (∀ e, yf.history ticker = Raised e →
          get_latest_price_sync Ticker symbol = Returned (info_price ticker))
  ∧ (∀ e, yf.info ticker = Raised e → intraday_price ticker = None →
          get_latest_price_sync Ticker symbol = Returned None).
Proof.
  intros HT. unfold get_latest_price_sync. rewrite HT. split_and!.
  - destruct (intraday_price ticker); eauto.
  - intros e He. by rewrite (history_exception_caught _ _ He).
  - intros e He ->. by rewrite (info_exception_caught _ _ He).
Qed.

Lemma get_latest_price_sync_returns_witness :
  ∃ price : option float, get_latest_price_sync demo_Ticker "MSFT" = Returned price.
Proof.
  apply (get_latest_price_sync_returns demo_Ticker "MSFT" unreachable).
  reflexivity.
Defined.

(** C10, as stated, fails where the constructor raises: the exception reaches
    the caller. *)
Lemma constructor_failure_escapes :
  get_latest_price_sync demo_Ticker "TSLA" = Raised (Exception "ValueError")
  ∧ ¬ (∃ price : option float, get_latest_price_sync demo_Ticker "TSLA" = Returned price).
Proof. split; [reflexivity | by intros [price Hp]]. Qed.

(** ** One tick *)

Section tick.
Context (w : World).
Implicit Types (r : Registry) (ws c : WebSocket) (sym s : string).

Lemma subscribers_remove_dead_ne sym ws r s :
  s ≠ sym → subscribers (remove_dead sym ws r) s = subscribers r s.
Proof.
  intros Hne. apply set_eq. intros c.
  rewrite elem_of_subscribers_remove_dead. naive_solver.
Qed.

(** A broadcast leaves the sets of the other symbols alone. *)
Lemma broadcast_subscribers sym payload conns r s :
  s ≠ sym → subscribers (broadcast w sym payload conns r).1 s = subscribers r s.
Proof.
  intros Hne. revert r. induction conns as [|ws conns IH]; intros r; simpl; [done|].
  rewrite IH. destruct (returned _); [done|]. by apply subscribers_remove_dead_ne.
Qed.

(** Every connection of the snapshot is sent the payload, whatever happened
    to the sends before it. *)
Lemma broadcast_sends sym payload conns r ws :
  ws ∈ conns →
  Send ws payload (returned (send_text w ws payload)) ∈ (broadcast w sym payload conns r).2.
Proof.
  revert r. induction conns as [|c conns IH]; intros r Hin; simpl.
  - by apply elem_of_nil in Hin.
  - apply elem_of_cons in Hin as [->|Hin]; [left | right; by apply IH].
Qed.

(** A broadcast produces nothing but sends of its payload to the snapshot. *)
Lemma broadcast_events sym payload conns r e :
  e ∈ (broadcast w sym payload conns r).2 →
  ∃ ws, ws ∈ conns ∧ e = Send ws payload (returned (send_text w ws payload)).
Proof.
  revert r. induction conns as [|c conns IH]; intros r; simpl.
  - by intros ?%elem_of_nil.
  - intros [->|Hin]%elem_of_cons.
    + exists c. split; [left | done].
    + destruct (IH _ Hin) as (ws & ? & ?). exists ws. split; [by right | done].
Qed.

Lemma fetches_app t1 t2 : fetches (t1 ++ t2) = (fetches t1 ++ fetches t2)%list.
Proof. apply omap_app. Qed.

Lemma fetches_broadcast sym payload conns r :
  fetches (broadcast w sym payload conns r).2 = [].
Proof. revert r. induction conns as [|c conns IH]; intros r; simpl; [done|apply IH]. Qed.

Lemma poll_once_eq r : poll_once w r = poll_symbols w 0 (keys r) r.
Proof. unfold poll_once. by destruct (keys r). Qed.

(** The helper is called for a prefix of the snapshot, in order; for all of
    it when no call raised. *)
Lemma poll_symbols_fetches n symbols r :
  fetches (poll_symbols w n symbols r).1.2 `prefix_of` symbols
  ∧ ((poll_symbols w n symbols r).2 = None →
     fetches (poll_symbols w n symbols r).1.2 = symbols).
Proof.
  revert n r. induction symbols as [|sym rest IH]; intros n r; simpl; [done|].
  destruct (get_latest_price w sym) as [price|e]; simpl.
  - rewrite fetches_app, fetches_broadcast. simpl.
    edestruct IH as [Hpre Hall]. split.
    + apply prefix_cons, Hpre.
    + intros Hnone. f_equal. by apply Hall.
  - split; [|done]. apply prefix_cons, prefix_nil.
Qed.

Lemma poll_symbols_completes n symbols r :
  (∀ sym, sym ∈ symbols → returned (get_latest_price w sym) = true) →
  (poll_symbols w n symbols r).2 = None.
Proof.
  revert n r. induction symbols as [|sym rest IH]; intros n r Hall; simpl; [done|].
  pose proof (Hall sym ltac:(left)) as Hsym.
  destruct (get_latest_price w sym) as [price|e]; simpl; [|done].
  apply IH. intros s Hs. apply Hall. by right.
Qed.

(** Every send of a tick carries a price update about a symbol of the
    snapshot. *)
Lemma poll_symbols_send_inv n symbols r ws m ok :
  Send ws m ok ∈ (poll_symbols w n symbols r).1.2 →
  ∃ sym, sym ∈ symbols ∧ price_symbol m = Some sym.
Proof.
  revert n r. induction symbols as [|sym rest IH]; intros n r; simpl.
  - by intros ?%elem_of_nil.
  - destruct (get_latest_price w sym) as [price|e]; simpl.
    + intros [?|[Hin|Hin]%elem_of_app]%elem_of_cons; [done| |].
      * apply broadcast_events in Hin as (c & _ & ?). simplify_eq.
        exists sym. split; [left | done].
      * destruct (IH _ _ Hin) as (s & ? & ?). exists s. split; [by right | done].
    + intros [?|?%elem_of_nil]%elem_of_cons; done.
Qed.

(** The payload of a symbol that the tick reaches is built once and sent to
    every member of the symbol's set. *)
Lemma poll_symbols_fan_out n symbols r sym price :
  NoDup symbols →
  sym ∈ fetches (poll_symbols w n symbols r).1.2 →
  get_latest_price w sym = Returned price →
  ∃ ts,
    (∀ ws, ws ∈ subscribers r sym →
           Send ws (PriceUpdate sym price ts)
             (returned (send_text w ws (PriceUpdate sym price ts)))
           ∈ (poll_symbols w n symbols r).1.2)
    ∧ (∀ ws m ok, Send ws m ok ∈ (poll_symbols w n symbols r).1.2 →
                  price_symbol m = Some sym → m = PriceUpdate sym price ts).
Proof.
  intros Hnd. revert n r.
  induction Hnd as [|s0 rest Hnotin Hnd IH]; intros n r; simpl.
  - by intros ?%elem_of_nil.
  - destruct (get_latest_price w s0) as [p0|e] eqn:Hs0; simpl.
    + rewrite fetches_app, fetches_broadcast. simpl.
      intros Hin Hprice. destruct (decide (sym = s0)) as [->|Hne].
      * assert (p0 = price) as -> by congruence. exists (time_time w n). split.
        -- intros ws Hws. right. apply elem_of_app. left.
           apply broadcast_sends. by apply elem_of_elements.
        -- intros ws m ok [?|[Hm|Hm]%elem_of_app]%elem_of_cons Hsym; [done| |].
           ++ apply broadcast_events in Hm as (c & _ & ?). by simplify_eq.
           ++ apply poll_symbols_send_inv in Hm as (s & Hs & ?). by simplify_eq.
      * apply elem_of_cons in Hin as [?|Hin]; [done|].
        destruct (IH _ _ Hin Hprice) as (ts & Hall & Hone). exists ts. split.
        -- intros ws Hws. right. apply elem_of_app. right. apply Hall.
           by rewrite broadcast_subscribers, subscribers_read.
        -- intros ws m ok [?|[Hm|Hm]%elem_of_app]%elem_of_cons Hsym; [done| |].
           ++ apply broadcast_events in Hm as (c & _ & ?). by simplify_eq/=.
           ++ by eapply Hone.
    + intros [->|?%elem_of_nil]%elem_of_cons Hprice; [congruence|done].
Qed.

Lemma NoDup_keys r : NoDup (keys r).
Proof. unfold keys. apply NoDup_elements. Qed.
End tick.

Lemma subscribers_no_key (r : Registry) (sym : string) :
  sym ∉ keys r → subscribers r sym = ∅.
Proof.
  rewrite elem_of_keys, not_elem_of_dom. unfold subscribers, DefaultDict.getitem.
  by intros ->.
Qed.

(** The payload of a symbol of the snapshot reaches the symbol's subscribers
    when the helper returned for every symbol of the snapshot. *)
Lemma poll_once_delivers (w : World) (r : Registry) (sym : string) (price : option float) :
  (∀ s, s ∈ keys r → returned (get_latest_price w s) = true) →
  get_latest_price w sym = Returned price →
  ∃ ts, ∀ ws, ws ∈ subscribers r sym →
    Send ws (PriceUpdate sym price ts) (returned (send_text w ws (PriceUpdate sym price ts)))
    ∈ (poll_once w r).1.2.
Proof.
  intros Hall Hprice. rewrite poll_once_eq.
  destruct (decide (sym ∈ keys r)) as [Hin|Hout].
  - assert (fetches (poll_symbols w 0 (keys r) r).1.2 = keys r) as Hfetched.
    { apply poll_symbols_fetches. by apply poll_symbols_completes. }
    destruct (poll_symbols_fan_out w 0 (keys r) r sym price) as (ts & Hts & _);
      [apply NoDup_keys | by rewrite Hfetched | done | by exists ts].
  - exists 0%Z. intros ws. rewrite subscribers_no_key by done. set_solver.
Qed.

(** C2, as amended. The snapshot of a tick is the key set of [subscriptions]:
    it holds every symbol that has a subscriber, each once, and it also holds
    the symbols whose set has become empty. The quote helper is called for a
    prefix of the snapshot and for nothing else, hence at most once per
    symbol, and for the whole snapshot when no call raises. When
    [subscriptions] has no key the tick does nothing. *)
Theorem snapshot_is_key_set (w : World) (r : Registry) :
  (∀ sym, sym ∈ keys r ↔ sym ∈ dom (subscriptions r))
  ∧ (∀ sym, subscribers r sym ≠ ∅ → sym ∈ keys r)
  ∧ NoDup (keys r)
  ∧ fetches (poll_once w r).1.2 `prefix_of` keys r
  ∧ ((poll_once w r).2 = None → fetches (poll_once w r).1.2 = keys r)
  ∧ (subscriptions r = ∅ → poll_once w r = (r, [], None)).
Proof.
  split_and!.
  - intros sym. apply elem_of_keys.
  - intros sym Hne. by apply elem_of_keys, subscribers_nonempty_key.
  - apply NoDup_keys.
  - rewrite poll_once_eq. apply poll_symbols_fetches.
  - rewrite poll_once_eq. apply poll_symbols_fetches.
  - intros Hempty. unfold poll_once, keys. rewrite Hempty, dom_empty_L, elements_empty. done.
Qed.

(** C2, as stated, fails once a symbol has lost its last subscriber: after one
    client has subscribed to AAPL and left, no connection is subscribed to
    anything, yet AAPL is in the snapshot and the helper is called for it. *)
Lemma deserted_symbol_still_polled :
  option_map registry (run come_and_go initial) = Some deserted
  ∧ (∀ sym, subscribers deserted sym = ∅)
  ∧ keys deserted = ["AAPL"]
  ∧ fetches (poll_once demo_world deserted).1.2 = ["AAPL"]
  ∧ ¬ snapshot_exact deserted
  ∧ ¬ idle_without_subscribers demo_world deserted.
Proof.
  assert (∀ sym, subscribers deserted sym = ∅) as Hnone.
  { intros sym. unfold subscribers, deserted, DefaultDict.getitem; simpl.
    destruct (decide (sym = "AAPL")) as [->|Hne].
    - by rewrite lookup_singleton_eq.
    - by rewrite lookup_singleton_ne. }
  assert (keys deserted = ["AAPL"]) as Hkeys by (vm_compute; reflexivity).
  assert (fetches (poll_once demo_world deserted).1.2 = ["AAPL"]) as Hfetch
    by (vm_compute; reflexivity).
  split_and!; [vm_compute; reflexivity | exact Hnone | exact Hkeys | exact Hfetch | |].
  - intros Hexact. destruct (Hexact "AAPL") as [Hsub _].
    apply Hsub; [rewrite Hkeys; left | apply Hnone].
  - intros Hidle. specialize (Hidle Hnone). rewrite Hfetch in Hidle. discriminate.
Qed.

(** What the helper makes of the provider's answers. *)
Lemma no_intraday_price (t : yf.Ticker) : no_intraday t → intraday_price t = None.
Proof.
  unfold intraday_price. intros [[e ->]|(df & -> & [->|[e He]])]; [done..|].
  destruct (yf.is_empty df); [done|]. simpl. by rewrite He.
Qed.

Lemma provider_fails_None (w : World) (sym : string) (t : yf.Ticker) :
  Ticker w sym = Returned t → provider_fails t → get_latest_price w sym = Returned None.
Proof.
  intros Ht [Hintra Hinfo]. unfold get_latest_price, get_latest_price_sync.
  rewrite Ht, (no_intraday_price t Hintra). unfold info_price, py_or.
  by destruct Hinfo as [[e ->]|(i & -> & -> & ->)].
Qed.

Lemma provider_quotes_Some (w : World) (sym : string) (t : yf.Ticker) (p : float) :
  Ticker w sym = Returned t → provider_quotes t p →
  get_latest_price w sym = Returned (Some p).
Proof.
  intros Ht Hquote. unfold get_latest_price, get_latest_price_sync. rewrite Ht.
  destruct Hquote as [(df & Hdf & Hempty & Hclose)|(Hintra & i & Hi & Hprice)].
  - unfold intraday_price. by rewrite Hdf, Hempty, Hclose.
  - rewrite (no_intraday_price t Hintra). unfold info_price, py_or. rewrite Hi.
    destruct Hprice as [[-> Hp]|[-> ->]]; [|done].
    simpl. by rewrite Hp.
Qed.

(** C4, as amended. In a tick in which [yf.Ticker] returns a ticker object
    for every symbol of the snapshot, the provider fails for symbol [A] (no
    request yields a price) and succeeds with the price [p] for symbol [B]:
    the tick runs to its end, every subscriber of [A] is sent an update whose
    price is null, and every subscriber of [B] is sent an update with the
    price, in that same tick. The last component of [Send] tells whether the
    send succeeded, that is, whether the subscriber received it. *)
Theorem tick_isolation (w : World) (r : Registry) (A B : string) (tA tB : yf.Ticker)
    (p : float) :
  (∀ sym, sym ∈ keys r → returned (Ticker w sym) = true) →
  Ticker w A = Returned tA → provider_fails tA →
  Ticker w B = Returned tB → provider_quotes tB p →
  (poll_once w r).2 = None
  ∧ ∃ tsA tsB,
      (∀ ws, ws ∈ subscribers r A →
         Send ws (PriceUpdate A None tsA)
           (returned (send_text w ws (PriceUpdate A None tsA))) ∈ (poll_once w r).1.2)
      ∧ (∀ ws, ws ∈ subscribers r B →
         Send ws (PriceUpdate B (Some p) tsB)
           (returned (send_text w ws (PriceUpdate B (Some p) tsB))) ∈ (poll_once w r).1.2).
Proof.
  intros Hbuilt HtA HfailA HtB HquoteB.
  assert (∀ sym, sym ∈ keys r → returned (get_latest_price w sym) = true) as Hall.
  { intros sym Hsym%Hbuilt. unfold get_latest_price, get_latest_price_sync.
    destruct (Ticker w sym) as [t|e]; [|done]. by destruct (intraday_price t). }
  pose proof (provider_fails_None w A tA HtA HfailA) as HA.
  pose proof (provider_quotes_Some w B tB p HtB HquoteB) as HB.
  split.
  - rewrite poll_once_eq. by apply poll_symbols_completes.
  - destruct (poll_once_delivers w r A None Hall HA) as [tsA HtsA].
    destruct (poll_once_delivers w r B (Some p) Hall HB) as [tsB HtsB].
    by exists tsA, tsB.
Qed.

Lemma demo_keys : keys demo_registry = ["MSFT"; "AAPL"].
Proof. vm_compute. reflexivity. Qed.

Lemma tick_isolation_witness :
  (poll_once demo_world demo_registry).2 = None
  ∧ ∃ tsA tsB,
      (∀ ws, ws ∈ subscribers demo_registry "MSFT" →
         Send ws (PriceUpdate "MSFT" None tsA)
           (returned (send_text demo_world ws (PriceUpdate "MSFT" None tsA)))
         ∈ (poll_once demo_world demo_registry).1.2)
      ∧ (∀ ws, ws ∈ subscribers demo_registry "AAPL" →
         Send ws (PriceUpdate "AAPL" (Some 150.25%float) tsB)
           (returned (send_text demo_world ws (PriceUpdate "AAPL" (Some 150.25%float) tsB)))
         ∈ (poll_once demo_world demo_registry).1.2).
Proof.
  apply (tick_isolation demo_world demo_registry "MSFT" "AAPL" unreachable
           (quoted 150.25%float) 150.25%float).
  - intros sym. rewrite demo_keys.
    intros [->|[->|[]%elem_of_nil]%elem_of_cons]%elem_of_cons; reflexivity.
  - reflexivity.
  - split; left; by eexists.
  - reflexivity.
  - left. eexists. by split_and!.
Defined.

(** C4, as stated, fails where the provider's failure is an exception of
    [yf.Ticker] itself: GOOG, the first symbol of the snapshot, cannot be
    fetched, AAPL could be, and the tick ends at GOOG. Neither the subscriber
    of GOOG nor the subscriber of AAPL is sent anything. *)
Lemma constructor_failure_aborts_tick :
  Ticker demo_world "GOOG" = Raised (Exception "ValueError")
  ∧ Ticker demo_world "AAPL" = Returned (quoted 150.25%float)
  ∧ provider_quotes (quoted 150.25%float) 150.25%float
  ∧ ws1 ∈ subscribers starved_registry "GOOG"
  ∧ ws2 ∈ subscribers starved_registry "AAPL"
  ∧ (poll_once demo_world starved_registry).2 = Some (Exception "ValueError")
  ∧ (poll_once demo_world starved_registry).1.2 = [Fetch "GOOG"]
  ∧ ¬ (∃ ts ok, Send ws1 (PriceUpdate "GOOG" None ts) ok
                ∈ (poll_once demo_world starved_registry).1.2)
  ∧ ¬ (∃ ts ok, Send ws2 (PriceUpdate "AAPL" (Some 150.25%float) ts) ok
                ∈ (poll_once demo_world starved_registry).1.2).
Proof.
  assert ((poll_once demo_world starved_registry).1.2 = [Fetch "GOOG"]) as Htrace
    by (vm_compute; reflexivity).
  split_and!.
  - reflexivity.
  - reflexivity.
  - left. eexists. by split_and!.
  - apply (bool_decide_unpack _). vm_compute. exact I.
  - apply (bool_decide_unpack _). vm_compute. exact I.
  - vm_compute. reflexivity.
  - exact Htrace.
  - rewrite Htrace. intros (ts & ok & [?|?%elem_of_nil]%elem_of_cons); done.
  - rewrite Htrace. intros (ts & ok & [?|?%elem_of_nil]%elem_of_cons); done.
Qed.



(** ** Agreement of the two maps *)

Section agreement.
Implicit Types (r : Registry) (ws c : WebSocket) (sym s : string).

Lemma maps_agree_at_most_one r : maps_agree r → at_most_one_symbol r.
Proof.
  intros Hagree c s1 s2 H1 H2. specialize (Hagree c).
  destruct (get c (ws_to_symbol r)) as [s|].
  - destruct Hagree as [_ Honly].
    destruct (decide (s1 = s)) as [->|]; [|by destruct (Honly s1)].
    destruct (decide (s2 = s)) as [->|]; [done|by destruct (Honly s2)].
  - by destruct (Hagree s1).
Qed.

Lemma maps_agree_elem r c s :
  maps_agree r → c ∈ subscribers r s → get c (ws_to_symbol r) = Some s.
Proof.
  intros Hagree Hin. specialize (Hagree c).
  destruct (get c (ws_to_symbol r)) as [s0|]; [|by destruct (Hagree s)].
  destruct Hagree as [_ Honly].
  destruct (decide (s = s0)) as [->|]; [done|by destruct (Honly s)].
Qed.

Lemma get_None_lookup c (m : gmap WebSocket (option string)) :
  m !! c = None → get c m = None.
Proof. unfold get. by intros ->. Qed.

Lemma maps_agree_empty : maps_agree empty_registry.
Proof.
  intros c. unfold get, subscribers, DefaultDict.getitem; simpl.
  rewrite lookup_empty; simpl. intros s'. rewrite lookup_empty; simpl. set_solver.
Qed.

Lemma maps_agree_accept ws r :
  forgotten ws r → maps_agree r → maps_agree (accept ws r).
Proof.
  intros [_ Hnowhere] Hagree c. unfold accept; simpl. rewrite get_insert.
  case_decide as Hc; [subst c; apply Hnowhere | apply Hagree].
Qed.

Lemma maps_agree_subscribe ws sym r :
  maps_agree r → no_empty_symbol r → maps_agree (subscribe ws sym r).
Proof.
  intros Hagree Hne c. rewrite get_subscribe. case_decide as Hc.
  - subst c. split.
    + apply elem_of_subscribers_subscribe. by left.
    + intros s' Hs' [[_ ?]|[Hin Hnot]]%elem_of_subscribers_subscribe; [done|].
      apply Hnot. split_and!; [done | by apply maps_agree_elem |].
      intros ->. apply (Hne ws). by apply maps_agree_elem.
  - specialize (Hagree c).
    assert (∀ s, c ∈ subscribers (subscribe ws sym r) s ↔ c ∈ subscribers r s) as Hsame.
    { intros s. rewrite elem_of_subscribers_subscribe. naive_solver. }
    destruct (get c (ws_to_symbol r)) as [s0|].
    + destruct Hagree as [Hin Honly]. split; [by apply Hsame|].
      intros s' Hs'. rewrite Hsame. by apply Honly.
    + intros s'. rewrite Hsame. apply Hagree.
Qed.

Lemma maps_agree_disconnect ws r :
  maps_agree r → no_empty_symbol r → maps_agree (disconnect_cleanup ws r).
Proof.
  intros Hagree Hne c. rewrite ws_to_symbol_disconnect, get_delete. case_decide as Hc.
  - subst c. intros s' [Hin Hnot]%elem_of_subscribers_disconnect.
    apply Hnot. split_and!; [done | by apply maps_agree_elem |].
    intros ->. apply (Hne ws). by apply maps_agree_elem.
  - specialize (Hagree c).
    assert (∀ s, c ∈ subscribers (disconnect_cleanup ws r) s ↔ c ∈ subscribers r s) as Hsame.
    { intros s. rewrite elem_of_subscribers_disconnect. naive_solver. }
    destruct (get c (ws_to_symbol r)) as [s0|].
    + destruct Hagree as [Hin Honly]. split; [by apply Hsame|].
      intros s' Hs'. rewrite Hsame. by apply Honly.
    + intros s'. rewrite Hsame. apply Hagree.
Qed.

(** Removing a dead connection under the symbol it is subscribed to keeps
    the maps in agreement. *)
Lemma maps_agree_remove_dead sym ws r :
  maps_agree r → (∀ s, ws ∈ subscribers r s → s = sym) →
  maps_agree (remove_dead sym ws r).
Proof.
  intros Hagree Hfresh c. unfold remove_dead at 1; simpl. rewrite get_delete.
  case_decide as Hc.
  - subst c. intros s' [Hin Hnot]%elem_of_subscribers_remove_dead.
    apply Hnot. split; [by apply Hfresh | done].
  - specialize (Hagree c).
    assert (∀ s, c ∈ subscribers (remove_dead sym ws r) s ↔ c ∈ subscribers r s) as Hsame.
    { intros s. rewrite elem_of_subscribers_remove_dead. naive_solver. }
    destruct (get c (ws_to_symbol r)) as [s0|].
    + destruct Hagree as [Hin Honly]. split; [by apply Hsame|].
      intros s' Hs'. rewrite Hsame. by apply Honly.
    + intros s'. rewrite Hsame. apply Hagree.
Qed.

Lemma maps_agree_read sym r : maps_agree r → maps_agree (read_subscribers sym r).
Proof.
  intros Hagree c. specialize (Hagree c). unfold read_subscribers at 1; simpl.
  destruct (get c (ws_to_symbol r)); by setoid_rewrite subscribers_read.
Qed.

Lemma no_empty_symbol_subscribe ws sym r :
  sym ≠ "" → no_empty_symbol r → no_empty_symbol (subscribe ws sym r).
Proof.
  intros Hsym Hne c. rewrite get_subscribe. case_decide; [congruence | apply Hne].
Qed.

Lemma no_empty_symbol_delete ws r r' :
  ws_to_symbol r' = delete ws (ws_to_symbol r) → no_empty_symbol r → no_empty_symbol r'.
Proof.
  intros Heq Hne c. rewrite Heq, get_delete. case_decide; [done | apply Hne].
Qed.

Lemma no_empty_symbol_accept ws r : no_empty_symbol r → no_empty_symbol (accept ws r).
Proof.
  intros Hne c. unfold accept; simpl. rewrite get_insert. case_decide; [done | apply Hne].
Qed.

(** After the cleanup of a disconnect, in a registry whose maps agree, the
    connection is nowhere. *)
Lemma disconnect_cleanup_forgets ws r :
  maps_agree r → no_empty_symbol r → forgotten ws (disconnect_cleanup ws r).
Proof.
  intros Hagree Hne. split.
  - rewrite ws_to_symbol_disconnect. apply lookup_delete_eq.
  - pose proof (maps_agree_disconnect ws r Hagree Hne ws) as Hws.
    by rewrite ws_to_symbol_disconnect, get_delete, decide_True in Hws.
Qed.

(** After the cleanup of a failed send, the connection is nowhere provided
    it had not left the symbol being broadcast for another one. *)
Lemma remove_dead_forgets sym ws r :
  (∀ s, ws ∈ subscribers r s → s = sym) → forgotten ws (remove_dead sym ws r).
Proof.
  intros Hfresh. split.
  - unfold remove_dead; simpl. apply lookup_delete_eq.
  - intros s [Hin Hnot]%elem_of_subscribers_remove_dead.
    apply Hnot. split; [by apply Hfresh | done].
Qed.
End agreement.

(** ** Runs without a stale snapshot *)

Section serial.
Implicit Types (r : Registry) (ws c : WebSocket) (sym s : string) (σ : System).

Lemma forgotten_accept c ws r : c ≠ ws → forgotten c r → forgotten c (accept ws r).
Proof.
  intros Hc [Hmap Hsets]. split; [|done].
  unfold accept; simpl. by rewrite lookup_insert_ne.
Qed.

Lemma forgotten_subscribe c ws sym r :
  c ≠ ws → forgotten c r → forgotten c (subscribe ws sym r).
Proof.
  intros Hc [Hmap Hsets]. split.
  - unfold subscribe; simpl. by rewrite lookup_insert_ne.
  - intros s [[? _]|[Hin _]]%elem_of_subscribers_subscribe; [done|by apply (Hsets s)].
Qed.

Lemma forgotten_disconnect c ws r : forgotten c r → forgotten c (disconnect_cleanup ws r).
Proof.
  intros [Hmap Hsets]. split.
  - rewrite ws_to_symbol_disconnect, lookup_delete. by case_decide.
  - intros s [Hin _]%elem_of_subscribers_disconnect. by apply (Hsets s).
Qed.

Lemma forgotten_discard_prev c ws r : forgotten c r → forgotten c (discard_prev ws r).
Proof.
  intros [Hmap Hsets]. split.
  - by rewrite ws_to_symbol_discard_prev.
  - intros s [Hin _]%elem_of_subscribers_discard_prev. by apply (Hsets s).
Qed.

Lemma forgotten_remove_dead c sym ws r : forgotten c r → forgotten c (remove_dead sym ws r).
Proof.
  intros [Hmap Hsets]. split.
  - unfold remove_dead; simpl. rewrite lookup_delete. by case_decide.
  - intros s [Hin _]%elem_of_subscribers_remove_dead. by apply (Hsets s).
Qed.

Lemma forgotten_read c sym r : forgotten c r → forgotten c (read_subscribers sym r).
Proof. intros [Hmap Hsets]. split; [done|]. intros s. rewrite subscribers_read. apply Hsets. Qed.

(** What the operations of one connection leave of another. *)
Lemma untouched_refl c r : untouched c r r.
Proof. by split. Qed.

Lemma untouched_trans c r1 r2 r3 :
  untouched c r1 r2 → untouched c r2 r3 → untouched c r1 r3.
Proof.
  intros [Hm Hs] [Hm' Hs']. split; [congruence|].
  intros s. by rewrite Hs', Hs.
Qed.

Lemma untouched_get c r r' :
  untouched c r r' → get c (ws_to_symbol r') = get c (ws_to_symbol r).
Proof. intros [Hm _]. unfold get. by rewrite Hm. Qed.

Lemma untouched_accept c ws r : c ≠ ws → untouched c r (accept ws r).
Proof.
  intros Hne. split; simpl.
  - by rewrite lookup_insert_ne.
  - intros s. by rewrite subscribers_accept.
Qed.

Lemma untouched_subscribe c ws sym r : c ≠ ws → untouched c r (subscribe ws sym r).
Proof.
  intros Hne. split.
  - unfold subscribe. simpl. by rewrite lookup_insert_ne.
  - intros s. rewrite elem_of_subscribers_subscribe. naive_solver.
Qed.

Lemma untouched_disconnect c ws r : c ≠ ws → untouched c r (disconnect_cleanup ws r).
Proof.
  intros Hne. split.
  - rewrite ws_to_symbol_disconnect. by rewrite lookup_delete_ne.
  - intros s. rewrite elem_of_subscribers_disconnect. naive_solver.
Qed.

Lemma untouched_discard_prev c ws r : c ≠ ws → untouched c r (discard_prev ws r).
Proof.
  intros Hne. split.
  - by rewrite ws_to_symbol_discard_prev.
  - intros s. rewrite elem_of_subscribers_discard_prev. naive_solver.
Qed.

Lemma untouched_remove_dead c sym ws r : c ≠ ws → untouched c r (remove_dead sym ws r).
Proof.
  intros Hne. split; simpl.
  - by rewrite lookup_delete_ne.
  - intros s. rewrite elem_of_subscribers_remove_dead. naive_solver.
Qed.

Lemma untouched_read c sym r : untouched c r (read_subscribers sym r).
Proof. split; [done|]. intros s. by rewrite subscribers_read. Qed.

(** What a handler step does to the registry, by the way it leaves the
    handler: a subscribe that could not hash its symbol has run the discard
    of line 264 and nothing else; otherwise the step has subscribed or not,
    and has run the cleanup exactly when it ends in [Disconnected]. *)
Lemma session_step_outcome rx sent ws r :
  (∃ e, (session_step rx sent ws r).2 = Died e
        ∧ (session_step rx sent ws r).1.1 = discard_prev ws r)
  ∨ ∃ r1, (r1 = r ∨ ∃ sym, sym ≠ "" ∧ r1 = subscribe ws sym r)
          ∧ (session_step rx sent ws r).1.1
            = match (session_step rx sent ws r).2 with
              | Disconnected => disconnect_cleanup ws r1
              | _ => r1
              end.
Proof.
  assert (∀ e r0, (escape e ws r0).1.1
                  = match (escape e ws r0).2 with
                    | Disconnected => disconnect_cleanup ws r0
                    | _ => r0
                    end) as Hescape by (by intros [|what] r0).
  assert (∀ msg r0, (reply sent ws msg r0).1.1
                    = match (reply sent ws msg r0).2 with
                      | Disconnected => disconnect_cleanup ws r0
                      | _ => r0
                      end) as Hreply.
  { intros msg r0. destruct sent as [u|e]; simpl; [done | apply Hescape]. }
  destruct rx as [[| |action symbol|action]|e]; unfold session_step, on_text.
  - right. exists r. split; [by left | apply Hreply].
  - right. exists r. split; [by left | done].
  - right. case_bool_decide.
    + destruct (truthy symbol) eqn:Hsym; simpl.
      * apply truthy_inv in Hsym as (sym & -> & Hne). simpl.
        exists (subscribe ws sym r). split; [right; by exists sym | apply Hreply].
      * exists r. split; [by left | apply Hreply].
    + exists r. split; [by left | apply Hreply].
  - case_bool_decide.
    + left. by exists (Exception "TypeError").
    + right. exists r. split; [by left | apply Hreply].
  - right. exists r. split; [by left | apply Hescape].
Qed.

Lemma session_step_cases rx sent ws r :
  let r' := (session_step rx sent ws r).1.1 in
  r' = r ∨ r' = disconnect_cleanup ws r ∨ r' = discard_prev ws r
  ∨ ∃ sym, sym ≠ "" ∧ (r' = subscribe ws sym r ∨ r' = disconnect_cleanup ws (subscribe ws sym r)).
Proof.
  simpl. destruct (session_step_outcome rx sent ws r) as [(e & _ & ->)|(r1 & Hr1 & ->)]; [auto|].
  destruct (session_step rx sent ws r).2, Hr1 as [->|(sym & ? & ->)]; eauto 8.
Qed.

Lemma session_step_forgotten c rx sent ws r :
  c ≠ ws → forgotten c r → forgotten c (session_step rx sent ws r).1.1.
Proof.
  intros Hc Hf.
  destruct (session_step_cases rx sent ws r) as [->|[->|[->|(sym & Hsym & [->| ->])]]];
    auto using forgotten_disconnect, forgotten_subscribe, forgotten_discard_prev.
Qed.

Lemma untouched_session_step c rx sent ws r :
  c ≠ ws → untouched c r (session_step rx sent ws r).1.1.
Proof.
  intros Hne.
  destruct (session_step_cases rx sent ws r) as [-> | [-> | [-> | (sym & _ & [-> | ->])]]].
  - apply untouched_refl.
  - by apply untouched_disconnect.
  - by apply untouched_discard_prev.
  - by apply untouched_subscribe.
  - eapply untouched_trans; [by apply untouched_subscribe | by apply untouched_disconnect].
Qed.

(** Membership implies the record: what the runs without a stale snapshot
    keep even when a handler dies. *)
Lemma member_is_recorded_at_most_one r : member_is_recorded r → at_most_one_symbol r.
Proof. intros Hm c s1 s2 H1%Hm H2%Hm. congruence. Qed.

Lemma maps_agree_member_is_recorded r : maps_agree r → member_is_recorded r.
Proof. intros Hagree c s. by apply maps_agree_elem. Qed.

Lemma member_is_recorded_agree r :
  member_is_recorded r →
  (∀ c s, get c (ws_to_symbol r) = Some s → c ∈ subscribers r s) →
  maps_agree r.
Proof.
  intros Hm Hr c. destruct (get c (ws_to_symbol r)) as [s|] eqn:Hget.
  - split; [by apply Hr|]. intros s' Hne Hin%Hm. congruence.
  - intros s' Hin%Hm. congruence.
Qed.

Lemma member_is_recorded_accept ws r :
  forgotten ws r → member_is_recorded r → member_is_recorded (accept ws r).
Proof.
  intros [_ Hnowhere] Hm c s. rewrite subscribers_accept. simpl. rewrite get_insert.
  case_decide as Hc; [|apply Hm]. subst c. intros Hin. by apply Hnowhere in Hin.
Qed.

Lemma member_is_recorded_subscribe ws sym r :
  member_is_recorded r → no_empty_symbol r → member_is_recorded (subscribe ws sym r).
Proof.
  intros Hm Hne c s. rewrite elem_of_subscribers_subscribe, get_subscribe.
  intros [[-> ->]|[Hin Hnot]]; [by rewrite decide_True|].
  case_decide as Hc; [|by apply Hm]. subst c. exfalso. apply Hnot.
  split_and!; [done | by apply Hm |]. intros ->. apply (Hne ws). by apply Hm.
Qed.

Lemma member_is_recorded_discard_prev ws r :
  member_is_recorded r → member_is_recorded (discard_prev ws r).
Proof.
  intros Hm c s [Hin _]%elem_of_subscribers_discard_prev.
  rewrite ws_to_symbol_discard_prev. by apply Hm.
Qed.

Lemma member_is_recorded_disconnect ws r :
  member_is_recorded r → no_empty_symbol r → member_is_recorded (disconnect_cleanup ws r).
Proof.
  intros Hm Hne c s [Hin Hnot]%elem_of_subscribers_disconnect.
  rewrite ws_to_symbol_disconnect, get_delete.
  case_decide as Hc; [|by apply Hm]. subst c. exfalso. apply Hnot.
  split_and!; [done | by apply Hm |]. intros ->. apply (Hne ws). by apply Hm.
Qed.

Lemma member_is_recorded_remove_dead sym ws r :
  member_is_recorded r → (∀ s, ws ∈ subscribers r s → s = sym) →
  member_is_recorded (remove_dead sym ws r).
Proof.
  intros Hm Hsnap c s [Hin Hnot]%elem_of_subscribers_remove_dead. simpl.
  rewrite get_delete. case_decide as Hc; [|by apply Hm].
  subst c. exfalso. apply Hnot. split; [by apply Hsnap | done].
Qed.

Lemma member_is_recorded_read sym r :
  member_is_recorded r → member_is_recorded (read_subscribers sym r).
Proof. intros Hm c s. rewrite subscribers_read. apply Hm. Qed.

Lemma no_empty_symbol_discard_prev ws r :
  no_empty_symbol r → no_empty_symbol (discard_prev ws r).
Proof. intros Hne c. rewrite ws_to_symbol_discard_prev. apply Hne. Qed.

Lemma no_empty_symbol_disconnect ws r :
  no_empty_symbol r → no_empty_symbol (disconnect_cleanup ws r).
Proof. intros Hne. eapply no_empty_symbol_delete; [apply ws_to_symbol_disconnect | done]. Qed.

Lemma session_step_no_empty rx sent ws r :
  no_empty_symbol r → no_empty_symbol (session_step rx sent ws r).1.1.
Proof.
  intros Hne.
  destruct (session_step_cases rx sent ws r) as [->|[->|[->|(sym & Hsym & [->| ->])]]];
    auto using no_empty_symbol_disconnect, no_empty_symbol_discard_prev,
               no_empty_symbol_subscribe.
Qed.

Lemma session_step_member_is_recorded rx sent ws r :
  member_is_recorded r → no_empty_symbol r →
  member_is_recorded (session_step rx sent ws r).1.1.
Proof.
  intros Hm Hne.
  destruct (session_step_cases rx sent ws r) as [->|[->|[->|(sym & Hsym & [->| ->])]]];
    auto using member_is_recorded_disconnect, member_is_recorded_discard_prev,
               member_is_recorded_subscribe, no_empty_symbol_subscribe.
Qed.

(** After the cleanup of a disconnect the connection is nowhere. *)
Lemma disconnect_forgets ws r :
  member_is_recorded r → no_empty_symbol r → forgotten ws (disconnect_cleanup ws r).
Proof.
  intros Hm Hne. split.
  - rewrite ws_to_symbol_disconnect. apply lookup_delete_eq.
  - intros s [Hin Hnot]%elem_of_subscribers_disconnect. apply Hnot.
    split_and!; [done | by apply Hm |]. intros ->. apply (Hne ws). by apply Hm.
Qed.

(** A handler step keeps what is recorded for the connections that are
    alive after it true of the sets. *)
Lemma session_step_recorded σ ws rx sent :
  sessions σ !! ws = Some Open →
  recorded_is_member σ →
  recorded_is_member
    (mkSystem (session_step rx sent ws (registry σ)).1.1
       (<[ws := (session_step rx sent ws (registry σ)).2]> (sessions σ)) (poll σ)).
Proof.
  intros Hws Hrim c s Halive Hget. unfold alive in Halive. simpl in *.
  destruct (decide (c = ws)) as [->|Hc].
  - specialize (Halive _ (lookup_insert_eq _ _ _)).
    destruct (session_step_outcome rx sent ws (registry σ))
      as [(e & Hst & _)|(r1 & Hr1 & Hout)]; [by rewrite Hst in Halive|].
    rewrite Hout in Hget |- *.
    destruct (session_step rx sent ws (registry σ)).2; [| |done].
    + destruct Hr1 as [->|(sym & Hsym & ->)].
      * apply Hrim; [|done]. intros st Hst. rewrite Hws in Hst. by simplify_eq.
      * rewrite get_subscribe, decide_True in Hget by done. simplify_eq.
        split; [done|]. apply elem_of_subscribers_subscribe. by left.
    + by rewrite ws_to_symbol_disconnect, get_delete, decide_True in Hget.
  - pose proof (untouched_session_step c rx sent ws (registry σ) Hc) as Hsame.
    rewrite (untouched_get _ _ _ Hsame) in Hget. destruct Hsame as [_ ->].
    apply Hrim; [|done]. intros st Hst. apply Halive. by rewrite lookup_insert_ne.
Qed.

Lemma pending_idle t : is_sending t = false → pending t = None.
Proof. by destruct t. Qed.

Lemma pending_next_symbol symbols : pending (next_symbol symbols) = None.
Proof. by destruct symbols. Qed.

Lemma pending_next_conn sym payload conns rest sym' conns' :
  pending (next_conn sym payload conns rest) = Some (sym', conns') →
  sym' = sym ∧ conns' = conns.
Proof.
  destruct conns as [|ws conns]; simpl.
  - by rewrite pending_next_symbol.
  - by intros [= <- <-].
Qed.

Lemma invariant_initial : invariant initial.
Proof.
  assert (∀ c s, c ∉ subscribers empty_registry s) as Hnowhere.
  { intros c s. pose proof (maps_agree_empty c) as Hc.
    unfold get in Hc; simpl in Hc. rewrite lookup_empty in Hc. apply Hc. }
  split_and!.
  - intros c s Hin. by apply Hnowhere in Hin.
  - intros c s _. unfold get; simpl. by rewrite lookup_empty.
  - intros c. unfold get; simpl. by rewrite lookup_empty.
  - intros ws _. split; [apply lookup_empty | apply Hnowhere].
  - intros sym conns. simpl. done.
Qed.

Lemma step_serial_invariant a σ σ' :
  step_serial a σ = Some σ' → invariant σ → invariant σ'.
Proof.
  unfold step_serial. intros Hstep (Hmir & Hrim & Hne & Hnew & Hfresh).
  destruct a as [ws|ws rx sent| |[price|e] now|sent]; simpl in Hstep.
  - destruct (is_sending (poll σ)) eqn:Hidle; [done|].
    destruct (sessions σ !! ws) eqn:Hws; simplify_eq.
    split_and!; simpl.
    + apply member_is_recorded_accept; auto.
    + intros c s Halive. simpl. rewrite get_insert, subscribers_accept.
      case_decide as Hc; [done|]. apply Hrim.
      intros st Hst. apply Halive. simpl. by rewrite lookup_insert_ne.
    + by apply no_empty_symbol_accept.
    + intros c Hc. apply lookup_insert_None in Hc as [Hc ?].
      apply forgotten_accept; auto.
    + intros sym conns. simpl. by rewrite pending_idle.
  - destruct (is_sending (poll σ)) eqn:Hidle; [done|].
    destruct (sessions σ !! ws) as [[| |]|] eqn:Hws; simplify_eq.
    split_and!; simpl.
    + by apply session_step_member_is_recorded.
    + by apply session_step_recorded.
    + by apply session_step_no_empty.
    + intros c Hc. apply lookup_insert_None in Hc as [Hc ?].
      apply session_step_forgotten; auto.
    + intros sym conns. simpl. by rewrite pending_idle.
  - destruct (poll σ); simplify_eq.
    split_and!; simpl; [done | exact Hrim | done | done |].
    intros sym conns. simpl. by rewrite pending_next_symbol.
  - destruct (poll σ) as [|sym rest|]; simplify_eq.
    split_and!; simpl.
    + by apply member_is_recorded_read.
    + intros c s Halive Hget. simpl. rewrite subscribers_read. by apply Hrim.
    + done.
    + intros c Hc. by apply forgotten_read, Hnew.
    + intros sym' conns [-> ->]%pending_next_conn c s Hc. simpl.
      rewrite subscribers_read. intros Hs.
      apply elem_of_elements in Hc.
      by apply (member_is_recorded_at_most_one _ Hmir c).
  - destruct (poll σ) as [|sym rest|]; simplify_eq.
    split_and!; simpl; [done | exact Hrim | done | done | done].
  - destruct (poll σ) as [| |sym payload ws conns rest] eqn:Hpoll; simplify_eq.
    assert (∀ c s, c ∈ ws :: conns → c ∈ subscribers (registry σ) s → s = sym) as Hsnap.
    { apply Hfresh. by rewrite Hpoll. }
    destruct (returned sent); split_and!; simpl.
    + done.
    + exact Hrim.
    + done.
    + done.
    + intros sym' conns' [-> ->]%pending_next_conn c s Hc. simpl.
      apply Hsnap. by right.
    + apply member_is_recorded_remove_dead; [done|]. intros s. apply Hsnap. by left.
    + intros c s Halive. simpl. rewrite get_delete. case_decide as Hc; [done|].
      intros Hget. destruct (Hrim c s Halive Hget) as [? Hin]. split; [done|].
      apply elem_of_subscribers_remove_dead. split; [done|]. by intros [_ ->].
    + by eapply no_empty_symbol_delete.
    + intros c Hc. by apply forgotten_remove_dead, Hnew.
    + intros sym' conns' [-> ->]%pending_next_conn c s Hc. simpl.
      intros [Hin _]%elem_of_subscribers_remove_dead.
      apply (Hsnap c s); [by right | done].
Qed.

Lemma run_serial_invariant acts σ σ' :
  run_serial acts σ = Some σ' → invariant σ → invariant σ'.
Proof.
  revert σ. induction acts as [|a acts IH]; intros σ Hrun Hinv; simpl in Hrun.
  - by simplify_eq.
  - destruct (step_serial a σ) as [σ1|] eqn:Hstep; [|done].
    eapply IH; [done|]. by eapply step_serial_invariant.
Qed.

(** A serial run is a run of the process. *)
Lemma run_serial_run acts σ σ' : run_serial acts σ = Some σ' → run acts σ = Some σ'.
Proof.
  revert σ. induction acts as [|a acts IH]; intros σ; simpl; [done|].
  unfold step_serial. destruct (of_session a && is_sending (poll σ)); [done|].
  destruct (step a σ); [apply IH | done].
Qed.

Lemma alive_all σ :
  map_Forall (λ _ st, died st = false) (sessions σ) → ∀ c, alive σ c.
Proof. intros Hall c st Hst. by apply (Hall c). Qed.

(** In every state reached without resuming a handler in the middle of a
    broadcast, and in which no handler has died, each connection is in at
    most one symbol's set and the two maps agree. *)
Lemma serial_run_consistent acts σ :
  run_serial acts initial = Some σ → (∀ c, alive σ c) → consistent (registry σ).
Proof.
  intros Hrun Halive.
  destruct (run_serial_invariant _ _ _ Hrun invariant_initial) as (Hmir & Hrim & _).
  split; [by apply member_is_recorded_at_most_one|].
  apply member_is_recorded_agree; [done|].
  intros c s Hget. by apply (Hrim c s).
Qed.
End serial.

(** ** One tick as a run of the process *)

Lemma broadcast_run (w : World) ss sym payload rest conns r :
  ∃ acts, Forall (λ a, of_session a = false) acts
          ∧ run acts (mkSystem r ss (next_conn sym payload conns rest))
            = Some (mkSystem (broadcast w sym payload conns r).1 ss (next_symbol rest)).
Proof.
  revert r. induction conns as [|ws conns IH]; intros r.
  - by exists [].
  - destruct (IH (if returned (send_text w ws payload) then r else remove_dead sym ws r))
      as (acts & Hacts & Hrun).
    exists (SendDone (send_text w ws payload) :: acts). split; [by constructor|].
    simpl. apply Hrun.
Qed.

(** [poll_once] is the run of the poll loop from one sleep to the next with
    no handler resumed in between. *)
Lemma poll_symbols_run (w : World) ss n symbols r :
  ∃ acts, Forall (λ a, of_session a = false) acts
          ∧ run acts (mkSystem r ss (next_symbol symbols))
            = Some (mkSystem (poll_symbols w n symbols r).1.1 ss Sleeping).
Proof.
  revert n r. induction symbols as [|sym rest IH]; intros n r.
  - by exists [].
  - simpl. destruct (get_latest_price w sym) as [price|e] eqn:Hprice.
    + destruct (broadcast_run w ss sym (PriceUpdate sym price (time_time w n)) rest
                  (elements (subscribers r sym)) (read_subscribers sym r))
        as (acts1 & Hacts1 & Hrun1).
      destruct (IH (S n) (broadcast w sym (PriceUpdate sym price (time_time w n))
                            (elements (subscribers r sym)) (read_subscribers sym r)).1)
        as (acts2 & Hacts2 & Hrun2).
      exists (PriceReady (Returned price) (time_time w n) :: acts1 ++ acts2). split.
      * constructor; [done|]. by apply Forall_app.
      * simpl. rewrite run_app, Hrun1. simpl. apply Hrun2.
    + exists [PriceReady (Raised e) 0%Z]. split; [by repeat constructor|done].
Qed.

Lemma poll_once_run (w : World) ss r :
  ∃ acts, Forall (λ a, of_session a = false) acts
          ∧ run (Wake :: acts) (mkSystem r ss Sleeping)
            = Some (mkSystem (poll_once w r).1.1 ss Sleeping).
Proof.
  rewrite poll_once_eq.
  destruct (poll_symbols_run w ss 0 (keys r) r) as (acts & Hacts & Hrun).
  by exists acts.
Qed.

(** ** A snapshot gone stale *)

Lemma switched_consistent : consistent switched.
Proof.
  apply (serial_run_consistent
           [Connect ws1; Connect ws2; Receive ws1 (command "AAPL") sent_ok;
            Receive ws2 (command "AAPL") sent_ok; Receive ws1 (command "MSFT") sent_ok]
           (mkSystem switched {[ws1 := Open; ws2 := Open]} Sleeping)).
  - vm_compute. reflexivity.
  - apply alive_all, (bool_decide_unpack _). vm_compute. exact I.
Qed.

(** C3, at the failing input. When the send of AAPL's payload to [ws1] fails,
    [ws1] has already moved to MSFT: the registry is consistent, the cleanup
    discards [ws1] from AAPL's set, where it no longer is, and pops its entry
    of [ws_to_symbol], so [ws1] stays in MSFT's set. The cleanup of the
    disconnect, run afterwards by [ws1]'s handler, finds no entry and removes
    nothing. *)
Theorem failed_send_cleanup_misses_moved_connection :
  run (take 8 switch_during_broadcast) initial
  = Some (mkSystem switched {[ws1 := Open; ws2 := Open]}
            (Sending "AAPL" (PriceUpdate "AAPL" (Some 150.25%float) 1700000000) ws1 [] []))
  ∧ consistent switched
  ∧ remove_dead "AAPL" ws1 switched = left_behind
  ∧ ws1 ∈ subscribers left_behind "MSFT"
  ∧ ¬ forgotten ws1 left_behind
  ∧ disconnect_cleanup ws1 left_behind = left_behind.
Proof.
  assert (ws1 ∈ subscribers left_behind "MSFT") as Hin
    by (apply (bool_decide_unpack _); vm_compute; exact I).
  split_and!.
  - vm_compute. reflexivity.
  - apply switched_consistent.
  - vm_compute. reflexivity.
  - exact Hin.
  - intros [_ Hnowhere]. by apply (Hnowhere "MSFT").
  - vm_compute. reflexivity.
Qed.

(** C1, at the failing input. The run [switch_during_broadcast] of the
    process ends in a registry in which [ws1] has no entry in [ws_to_symbol]
    and is a member of MSFT's set: the two maps disagree. The run resumes a
    handler in the middle of a broadcast, so it is not a serial run. *)
Theorem stale_snapshot_breaks_agreement :
  reachable (mkSystem left_behind {[ws1 := Open; ws2 := Open]} Sleeping)
  ∧ get ws1 (ws_to_symbol left_behind) = None
  ∧ ws1 ∈ subscribers left_behind "MSFT"
  ∧ ¬ maps_agree left_behind
  ∧ ¬ consistent left_behind
  ∧ run_serial switch_during_broadcast initial = None.
Proof.
  assert (ws1 ∈ subscribers left_behind "MSFT") as Hin
    by (apply (bool_decide_unpack _); vm_compute; exact I).
  assert (¬ maps_agree left_behind) as Hnot.
  { intros Hagree. specialize (Hagree ws1).
    change (get ws1 (ws_to_symbol left_behind)) with (@None string) in Hagree.
    by apply (Hagree "MSFT"). }
  split_and!.
  - exists switch_during_broadcast. vm_compute. reflexivity.
  - reflexivity.
  - exact Hin.
  - exact Hnot.
  - intros [_ Hagree]. by apply Hnot.
  - vm_compute. reflexivity.
Qed.

(** * Further properties of the code

    The handler of a connection taken as a whole, the uninterrupted tick of
    [poll_loop], the runs of the process, the price helper, and the analytics
    endpoint ([compute_analytics_sync], [get_analytics]). *)

(** ** A session touches its own connection only *)

Section sessions.
Implicit Types (r : Registry) (ws c : WebSocket) (sym s : string).

Lemma untouched_receive_loop c evs ws r :
  c ≠ ws → untouched c r (receive_loop evs ws r).1.1.
Proof.
  intros Hne. revert r. induction evs as [|[rx sent] evs IH]; intros r; simpl.
  - apply untouched_refl.
  - pose proof (untouched_session_step c rx sent ws r Hne) as Hstep.
    destruct (session_step rx sent ws r) as [[r1 out] st] eqn:Hs. simpl in *.
    destruct st; simpl; [|done..].
    eapply untouched_trans; [exact Hstep | apply IH].
Qed.

End sessions.

(** X1. Whatever a connection receives during its whole session, and however
    the session ends, every other connection keeps its entry of
    [ws_to_symbol] and is a member of exactly the sets it was a member of. *)
Theorem session_isolated (accepted : result unit) (evs : list (received * result unit))
    (ws c : WebSocket) (r : Registry) :
  c ≠ ws → untouched c r (websocket_endpoint accepted evs ws r).1.1.
Proof.
  intros Hne. destruct accepted as [[]|e]; simpl.
  - eapply untouched_trans; [by apply untouched_accept | by apply untouched_receive_loop].
  - apply untouched_refl.
Qed.

Lemma session_isolated_witness :
  untouched ws2 lone_subscriber
    (websocket_endpoint sent_ok browse_and_leave ws1 lone_subscriber).1.1.
Proof. apply session_isolated. done. Defined.

(** ** A whole session of a new connection *)

Section whole_session.
Implicit Types (r : Registry) (ws c : WebSocket) (sym s : string).

Lemma with_session_get ws v r0 r : with_session ws v r0 r → get ws (ws_to_symbol r) = v.
Proof. intros (Hm & _ & _). unfold get. by rewrite Hm, lookup_insert_eq. Qed.

Lemma with_session_accept ws r0 : forgotten ws r0 → with_session ws None r0 (accept ws r0).
Proof.
  intros _. split_and!; [done..|].
  intros c s. rewrite subscribers_accept. naive_solver.
Qed.

Lemma with_session_subscribe ws v sym r0 r :
  sym ≠ "" → forgotten ws r0 → with_session ws v r0 r →
  with_session ws (Some sym) r0 (subscribe ws sym r).
Proof.
  intros Hsym [_ Hnowhere] Hwith.
  pose proof (with_session_get _ _ _ _ Hwith) as Hget.
  destruct Hwith as (Hm & Hv & Hin). split_and!.
  - unfold subscribe. simpl. by rewrite Hm, insert_insert_eq.
  - congruence.
  - intros c s. rewrite elem_of_subscribers_subscribe, Hin, Hget.
    specialize (Hnowhere s). split.
    + intros [[-> ->]|[[?|[-> ->]] Hnot]]; [by right | by left |].
      exfalso. apply Hnot. split_and!; [done..|]. by intros ->.
    + intros [Hc|[-> [= ->]]]; [|by left].
      right. split; [by left|]. intros (-> & _ & _). done.
Qed.

Lemma with_session_disconnect ws v r0 r :
  forgotten ws r0 → with_session ws v r0 r →
  ws_to_symbol (disconnect_cleanup ws r) = ws_to_symbol r0
  ∧ ∀ s, subscribers (disconnect_cleanup ws r) s = subscribers r0 s.
Proof.
  intros [Hnone Hnowhere] Hwith.
  pose proof (with_session_get _ _ _ _ Hwith) as Hget.
  destruct Hwith as (Hm & Hv & Hin). split.
  - rewrite ws_to_symbol_disconnect, Hm. by apply delete_insert_id.
  - intros s. apply set_eq. intros c.
    rewrite elem_of_subscribers_disconnect, Hin, Hget.
    specialize (Hnowhere s). split.
    + intros [[?|[-> ->]] Hnot]; [done|].
      exfalso. apply Hnot. split_and!; [done..|]. by intros ->.
    + intros Hc. split; [by left|]. intros (-> & _ & _). done.
Qed.

Lemma receive_loop_with_session evs ws v r0 r :
  forgotten ws r0 → with_session ws v r0 r →
  match (receive_loop evs ws r).2 with
  | Open => ∃ v', with_session ws v' r0 (receive_loop evs ws r).1.1
  | Disconnected =>
      ws_to_symbol (receive_loop evs ws r).1.1 = ws_to_symbol r0
      ∧ ∀ s, subscribers (receive_loop evs ws r).1.1 s = subscribers r0 s
  | Died _ => True
  end.
Proof.
  intros Hnew. revert v r. induction evs as [|[rx sent] evs IH]; intros v r Hwith; simpl.
  - by exists v.
  - destruct (session_step_outcome rx sent ws r) as [(e & Hst & _)|(r1 & Hr1 & Hout)].
    { destruct (session_step rx sent ws r) as [[r' out] st]. simpl in Hst. by subst st. }
    assert (∃ v1, with_session ws v1 r0 r1) as [v1 Hwith1].
    { destruct Hr1 as [->|(sym & Hsym & ->)]; [by exists v|].
      exists (Some sym). by eapply with_session_subscribe. }
    destruct (session_step rx sent ws r) as [[r' out] st]. simpl in Hout.
    destruct st; simpl; subst r'.
    + by eapply IH.
    + by eapply with_session_disconnect.
    + done.
Qed.

(** The loop over two lists of events, when it is still running after the
    first. *)
Lemma receive_loop_app evs evs' ws r :
  (receive_loop evs ws r).2 = Open →
  (receive_loop (evs ++ evs') ws r).1.1 = (receive_loop evs' ws (receive_loop evs ws r).1.1).1.1
  ∧ (receive_loop (evs ++ evs') ws r).2 = (receive_loop evs' ws (receive_loop evs ws r).1.1).2.
Proof.
  revert r. induction evs as [|[rx sent] evs IH]; intros r; simpl; [done|].
  destruct (session_step rx sent ws r) as [[r1 out] st]. simpl.
  destruct st; simpl; [|done..]. apply IH.
Qed.

(** A text that is no subscribe attempt changes the registry only through
    the cleanup of a disconnect. *)
Lemma session_step_no_attempt rx sent ws r :
  subscribe_attempt rx = false →
  (session_step rx sent ws r).2 ≠ Disconnected →
  (session_step rx sent ws r).1.1 = r.
Proof.
  assert (∀ e r0, (escape e ws r0).2 ≠ Disconnected → (escape e ws r0).1.1 = r0)
    as Hescape by (by intros [|what] r0).
  assert (∀ msg r0, (reply sent ws msg r0).2 ≠ Disconnected → (reply sent ws msg r0).1.1 = r0)
    as Hreply.
  { intros msg r0. destruct sent as [u|e]; simpl; [done | apply Hescape]. }
  destruct rx as [[| |action symbol|action]|e]; unfold session_step, on_text; simpl;
    intros Hattempt.
  - apply Hreply.
  - done.
  - case_bool_decide; [|apply Hreply]. simpl in Hattempt. rewrite Hattempt. apply Hreply.
  - case_bool_decide; [done | apply Hreply].
  - apply Hescape.
Qed.

Lemma receive_loop_no_attempt tail ws r e :
  Forall (λ ev, subscribe_attempt ev.1 = false) tail →
  (receive_loop tail ws r).2 = Died e →
  (receive_loop tail ws r).1.1 = r.
Proof.
  intros Htail. revert r. induction Htail as [|[rx sent] tail Hrx Htail IH]; intros r; simpl.
  - done.
  - pose proof (session_step_no_attempt rx sent ws r Hrx) as Hsame.
    destruct (session_step rx sent ws r) as [[r1 out] st]. simpl in *.
    destruct st; simpl.
    + rewrite Hsame by done. apply IH.
    + done.
    + intros _. by apply Hsame.
Qed.

End whole_session.

(** X2. The session of a new connection that ends by the client's
    disconnect, run with nothing else touching the registry meanwhile, leaves
    [ws_to_symbol] as it was and every symbol's set of subscribers as it was,
    whatever the client subscribed to in between. *)
Theorem session_round_trip (accepted : result unit) (evs : list (received * result unit))
    (ws : WebSocket) (r : Registry) :
  forgotten ws r →
  (websocket_endpoint accepted evs ws r).2 = Disconnected →
  ws_to_symbol (websocket_endpoint accepted evs ws r).1.1 = ws_to_symbol r
  ∧ ∀ s, subscribers (websocket_endpoint accepted evs ws r).1.1 s = subscribers r s.
Proof.
  intros Hnew. destruct accepted as [[]|e]; simpl; [|done].
  pose proof (receive_loop_with_session evs ws None r (accept ws r) Hnew
                (with_session_accept ws r Hnew)) as Hloop.
  intros Hend. by rewrite Hend in Hloop.
Qed.

Lemma lone_subscriber_new : forgotten ws1 lone_subscriber.
Proof.
  split; [vm_compute; reflexivity|].
  intros sym Hin. unfold subscribers, DefaultDict.getitem in Hin. simpl in Hin.
  unfold DefaultDict.add in Hin.
  destruct (decide (sym = "MSFT")) as [->|Hne].
  - rewrite lookup_insert_eq in Hin. simpl in Hin. set_solver.
  - rewrite lookup_insert_ne in Hin by done. set_solver.
Qed.

Lemma session_round_trip_witness :
  ws_to_symbol (websocket_endpoint sent_ok browse_and_leave ws1 lone_subscriber).1.1
  = ws_to_symbol lone_subscriber
  ∧ ∀ s, subscribers (websocket_endpoint sent_ok browse_and_leave ws1 lone_subscriber).1.1 s
         = subscribers lone_subscriber s.
Proof.
  apply session_round_trip.
  - apply lone_subscriber_new.
  - vm_compute. reflexivity.
Defined.

(** X3. A handler that an exception other than [WebSocketDisconnect] ends
    (a text that is valid JSON but no object, a failing send) after a
    subscribe command, with no further subscribe attempted in between, runs
    no cleanup: the connection keeps the entry of the symbol it last
    subscribed to and stays a member of that symbol's set. *)
Theorem died_handler_stays_registered (evs tail : list (received * result unit))
    (ws : WebSocket) (r : Registry) (sym : string) (sent : result unit) (e : exn) :
  sym ≠ "" →
  (receive_loop evs ws (accept ws r)).2 = Open →
  Forall (λ ev, subscribe_attempt ev.1 = false) tail →
  (websocket_endpoint (Returned ()) (evs ++ (command sym, sent) :: tail) ws r).2 = Died e →
  ws_to_symbol (websocket_endpoint (Returned ()) (evs ++ (command sym, sent) :: tail) ws r).1.1
    !! ws = Some (Some sym)
  ∧ ws ∈ subscribers
           (websocket_endpoint (Returned ()) (evs ++ (command sym, sent) :: tail) ws r).1.1 sym.
Proof.
  intros Hsym Hopen Htail. unfold websocket_endpoint.
  destruct (receive_loop_app evs ((command sym, sent) :: tail) ws (accept ws r) Hopen)
    as [-> ->].
  set (r1 := (receive_loop evs ws (accept ws r)).1.1).
  assert (ws_to_symbol (subscribe ws sym r1) !! ws = Some (Some sym)
          ∧ ws ∈ subscribers (subscribe ws sym r1) sym) as Hsubscribed.
  { split; [apply lookup_subscribe | apply elem_of_subscribers_subscribe; by left]. }
  cbn [receive_loop]. unfold command, session_step. rewrite on_text_subscribe by done.
  destruct sent as [u|[|what]]; simpl.
  - intros Hend. by rewrite (receive_loop_no_attempt tail ws _ e Htail Hend).
  - done.
  - done.
Qed.

Lemma died_handler_stays_registered_witness :
  ws_to_symbol (websocket_endpoint (Returned ()) subscribe_then_array ws1 lone_subscriber).1.1
    !! ws1 = Some (Some "AAPL")
  ∧ ws1 ∈ subscribers
            (websocket_endpoint (Returned ()) subscribe_then_array ws1 lone_subscriber).1.1 "AAPL".
Proof.
  apply (died_handler_stays_registered [] [(Text NotObject, sent_ok)] ws1 lone_subscriber
           "AAPL" sent_ok (Exception "AttributeError")).
  - done.
  - reflexivity.
  - by repeat constructor.
  - vm_compute. reflexivity.
Defined.

(** ** What the handler sends *)

Lemma session_step_messages rx sent ws r :
  Forall handler_message (session_step rx sent ws r).1.2
  ∧ (length (session_step rx sent ws r).1.2 ≤ 1)%nat.
Proof.
  assert (∀ e r0, (escape e ws r0).1.2 = []) as Hescape by (by intros [|what] r0).
  assert (∀ msg r0, handler_message msg →
            Forall handler_message (reply sent ws msg r0).1.2
            ∧ (length (reply sent ws msg r0).1.2 ≤ 1)%nat) as Hreply.
  { intros msg r0 Hmsg. destruct sent as [u|e]; simpl.
    - split; [by repeat constructor | lia].
    - rewrite Hescape. split; [constructor | simpl; lia]. }
  destruct rx as [[| |action symbol|action]|e]; unfold session_step, on_text.
  - apply Hreply. simpl. set_solver.
  - split; [constructor | simpl; lia].
  - case_bool_decide.
    + destruct (truthy symbol) eqn:Hsym; simpl.
      * apply truthy_inv in Hsym as (sym & -> & Hne). by apply Hreply.
      * apply Hreply. simpl. set_solver.
    + apply Hreply. simpl. set_solver.
  - case_bool_decide.
    + rewrite Hescape. split; [constructor | simpl; lia].
    + apply Hreply. simpl. set_solver.
  - rewrite Hescape. split; [constructor | simpl; lia].
Qed.

Lemma receive_loop_messages evs ws r :
  Forall handler_message (receive_loop evs ws r).1.2
  ∧ (length (receive_loop evs ws r).1.2 ≤ length evs)%nat.
Proof.
  revert r. induction evs as [|[rx sent] evs IH]; intros r; simpl.
  - split; [constructor | lia].
  - destruct (session_step_messages rx sent ws r) as [Hall Hlen].
    destruct (session_step rx sent ws r) as [[r1 out] st]. simpl in *.
    destruct st; simpl; [|split; [done | lia]..].
    destruct (IH r1) as [Hall' Hlen']. split.
    + by apply Forall_app.
    + rewrite length_app. lia.
Qed.

(** X4. All that a handler ever sends to its client is an acknowledgement
    [subscribed] of a non-empty symbol or one of the three error texts, at
    most one message per received text; it never sends a price update. *)
Theorem handler_protocol (accepted : result unit) (evs : list (received * result unit))
    (ws : WebSocket) (r : Registry) :
  Forall handler_message (websocket_endpoint accepted evs ws r).1.2
  ∧ (length (websocket_endpoint accepted evs ws r).1.2 ≤ length evs)%nat
  ∧ ∀ m, m ∈ (websocket_endpoint accepted evs ws r).1.2 → price_symbol m = None.
Proof.
  assert (Forall handler_message (websocket_endpoint accepted evs ws r).1.2
          ∧ (length (websocket_endpoint accepted evs ws r).1.2 ≤ length evs)%nat) as [Hall Hlen].
  { destruct accepted as [[]|e]; simpl.
    - apply receive_loop_messages.
    - split; [constructor | lia]. }
  split_and!; [done..|].
  intros m Hm. rewrite Forall_forall in Hall. specialize (Hall m Hm).
  by destruct m.
Qed.

(** ** One uninterrupted tick: who is sent what, and what the registry keeps *)

Section tick_effects.
Context (w : World).
Implicit Types (r : Registry) (ws c : WebSocket) (sym s : string).

Lemma failed_sends_app t1 t2 :
  failed_sends (t1 ++ t2) = (failed_sends t1 ++ failed_sends t2)%list.
Proof. apply omap_app. Qed.

Lemma sends_to_app c t1 t2 : sends_to c (t1 ++ t2) = (sends_to c t1 ++ sends_to c t2)%list.
Proof. apply omap_app. Qed.

(** The sets only lose members during a tick. *)
Lemma broadcast_subset sym payload conns r c s :
  c ∈ subscribers (broadcast w sym payload conns r).1 s → c ∈ subscribers r s.
Proof.
  revert r. induction conns as [|ws conns IH]; intros r; simpl; [done|].
  intros Hin%IH. destruct (returned _); [done|].
  by apply elem_of_subscribers_remove_dead in Hin as [? _].
Qed.

Lemma poll_symbols_subset n symbols r c s :
  c ∈ subscribers (poll_symbols w n symbols r).1.1 s → c ∈ subscribers r s.
Proof.
  revert n r. induction symbols as [|sym rest IH]; intros n r; simpl; [done|].
  destruct (get_latest_price w sym) as [price|e]; simpl; [|done].
  intros Hin%IH%broadcast_subset. by rewrite subscribers_read in Hin.
Qed.

(** A connection whose sends all went through is left as it was. *)
Lemma broadcast_untouched sym payload conns r c :
  c ∉ failed_sends (broadcast w sym payload conns r).2 →
  untouched c r (broadcast w sym payload conns r).1.
Proof.
  revert r. induction conns as [|ws conns IH]; intros r; simpl.
  - intros _. apply untouched_refl.
  - destruct (returned (send_text w ws payload)); simpl.
    + apply IH.
    + intros Hnot. apply not_elem_of_cons in Hnot as [Hne Hnot].
      eapply untouched_trans; [by apply untouched_remove_dead | by apply IH].
Qed.

Lemma poll_symbols_untouched n symbols r c :
  c ∉ failed_sends (poll_symbols w n symbols r).1.2 →
  untouched c r (poll_symbols w n symbols r).1.1.
Proof.
  revert n r. induction symbols as [|sym rest IH]; intros n r; simpl.
  - intros _. apply untouched_refl.
  - destruct (get_latest_price w sym) as [price|e]; simpl; [|intros _; apply untouched_refl].
    rewrite failed_sends_app. intros [Hb Hrest]%not_elem_of_app.
    eapply untouched_trans; [apply untouched_read|].
    eapply untouched_trans; [by apply broadcast_untouched | by apply IH].
Qed.

(** Every send goes to a member of the set of the symbol it is about. *)
Lemma poll_symbols_send_subscriber n symbols r ws m ok :
  Send ws m ok ∈ (poll_symbols w n symbols r).1.2 →
  ∃ sym price ts,
    sym ∈ symbols ∧ m = PriceUpdate sym price ts
    ∧ get_latest_price w sym = Returned price
    ∧ ws ∈ subscribers r sym
    ∧ ok = returned (send_text w ws m).
Proof.
  revert n r. induction symbols as [|sym rest IH]; intros n r; simpl.
  - by intros ?%elem_of_nil.
  - destruct (get_latest_price w sym) as [price|e] eqn:Hprice; simpl.
    + intros [?|[Hin|Hin]%elem_of_app]%elem_of_cons; [done| |].
      * apply broadcast_events in Hin as (c & Hc & ?). simplify_eq.
        exists sym, price, (time_time w n). split_and!; [left | done.. | | done].
        by apply elem_of_elements in Hc.
      * destruct (IH _ _ Hin) as (s & p & ts & ? & ? & ? & Hws & ?).
        exists s, p, ts. split_and!; [by right | done.. | | done].
        apply broadcast_subset in Hws. by rewrite subscribers_read in Hws.
    + intros [?|?%elem_of_nil]%elem_of_cons; done.
Qed.

(** At most one message per connection. *)
Lemma sends_to_broadcast_notin sym payload conns r c :
  c ∉ conns → sends_to c (broadcast w sym payload conns r).2 = [].
Proof.
  revert r. induction conns as [|ws conns IH]; intros r; simpl; [done|].
  intros [Hne Hnot]%not_elem_of_cons. rewrite decide_False by done. by apply IH.
Qed.

Lemma sends_to_broadcast sym payload conns r c :
  NoDup conns → (length (sends_to c (broadcast w sym payload conns r).2) ≤ 1)%nat.
Proof.
  intros Hnd. revert r. induction Hnd as [|ws conns Hnotin Hnd IH]; intros r; simpl; [lia|].
  case_decide as Hc.
  - subst c. rewrite sends_to_broadcast_notin by done. simpl. lia.
  - apply IH.
Qed.

Lemma sends_to_poll_symbols_none n symbols r c :
  (∀ sym, sym ∈ symbols → c ∉ subscribers r sym) →
  sends_to c (poll_symbols w n symbols r).1.2 = [].
Proof.
  revert n r. induction symbols as [|sym rest IH]; intros n r Hnone; simpl; [done|].
  destruct (get_latest_price w sym) as [price|e]; simpl; [|done].
  rewrite sends_to_app, sends_to_broadcast_notin, IH; [done| |].
  - intros s Hs Hin%broadcast_subset. rewrite subscribers_read in Hin.
    apply (Hnone s); [by right | done].
  - rewrite elem_of_elements. apply Hnone. left.
Qed.

Lemma sends_to_poll_symbols n symbols r c :
  NoDup symbols → at_most_one_symbol r →
  (length (sends_to c (poll_symbols w n symbols r).1.2) ≤ 1)%nat.
Proof.
  intros Hnd. revert n r.
  induction Hnd as [|sym rest Hnotin Hnd IH]; intros n r Hone; simpl; [lia|].
  destruct (get_latest_price w sym) as [price|e]; simpl; [|lia].
  rewrite sends_to_app, length_app.
  destruct (decide (c ∈ subscribers r sym)) as [Hin|Hout].
  - rewrite sends_to_poll_symbols_none.
    + pose proof (sends_to_broadcast sym (PriceUpdate sym price (time_time w n))
                    (elements (subscribers r sym)) (read_subscribers sym r) c
                    (NoDup_elements _)). simpl. lia.
    + intros s Hs Hs'%broadcast_subset. rewrite subscribers_read in Hs'.
      rewrite (Hone c s sym Hs' Hin) in Hs. done.
  - rewrite sends_to_broadcast_notin by (by rewrite elem_of_elements). simpl.
    apply IH. intros c' s1 s2 H1%broadcast_subset H2%broadcast_subset.
    rewrite subscribers_read in H1, H2. by eapply Hone.
Qed.

(** The tick creates no key and removes none. *)
Lemma dom_insert_key (k : string) (X : gset WebSocket) (d : gmap string (gset WebSocket)) :
  k ∈ dom d → dom (<[k := X]> d) = dom d.
Proof. intros Hk. rewrite dom_insert_L. set_solver. Qed.

Lemma broadcast_keys sym payload conns r :
  sym ∈ dom (subscriptions r) →
  dom (subscriptions (broadcast w sym payload conns r).1) = dom (subscriptions r).
Proof.
  revert r. induction conns as [|ws conns IH]; intros r Hsym; simpl; [done|].
  destruct (returned _); [by apply IH|].
  assert (dom (subscriptions (remove_dead sym ws r)) = dom (subscriptions r)) as Hdom
    by (by apply dom_insert_key).
  rewrite IH; [done|]. by rewrite Hdom.
Qed.

Lemma poll_symbols_keys n symbols r :
  (∀ sym, sym ∈ symbols → sym ∈ dom (subscriptions r)) →
  dom (subscriptions (poll_symbols w n symbols r).1.1) = dom (subscriptions r).
Proof.
  revert n r. induction symbols as [|sym rest IH]; intros n r Hkeys; simpl; [done|].
  destruct (get_latest_price w sym) as [price|e]; simpl; [|done].
  assert (sym ∈ dom (subscriptions r)) as Hsym by (apply Hkeys; left).
  assert (dom (subscriptions (read_subscribers sym r)) = dom (subscriptions r)) as Hread
    by (by apply dom_insert_key).
  assert (dom (subscriptions (broadcast w sym (PriceUpdate sym price (time_time w n))
                                (elements (subscribers r sym)) (read_subscribers sym r)).1)
          = dom (subscriptions r)) as Hsent.
  { rewrite broadcast_keys; [done|]. by rewrite Hread. }
  rewrite IH; [done|].
  intros s Hs. rewrite Hsent. apply Hkeys. by right.
Qed.

(** The agreement of the two maps survives the tick. *)
Lemma broadcast_agree sym payload conns r :
  maps_agree r →
  (∀ c s, c ∈ conns → c ∈ subscribers r s → s = sym) →
  maps_agree (broadcast w sym payload conns r).1.
Proof.
  revert r. induction conns as [|ws conns IH]; intros r Hagree Hfresh; simpl; [done|].
  destruct (returned _).
  - apply IH; [done|]. intros c s Hc. apply Hfresh. by right.
  - apply IH.
    + apply maps_agree_remove_dead; [done|]. intros s. apply Hfresh. left.
    + intros c s Hc [Hin _]%elem_of_subscribers_remove_dead.
      eapply Hfresh; [by right | done].
Qed.

Lemma snapshot_of_agreeing r sym c s :
  maps_agree r → c ∈ elements (subscribers r sym) →
  c ∈ subscribers (read_subscribers sym r) s → s = sym.
Proof.
  intros Hagree Hc%elem_of_elements Hs. rewrite subscribers_read in Hs.
  by eapply maps_agree_at_most_one.
Qed.

Lemma poll_symbols_agree n symbols r :
  maps_agree r → maps_agree (poll_symbols w n symbols r).1.1.
Proof.
  revert n r. induction symbols as [|sym rest IH]; intros n r Hagree; simpl; [done|].
  destruct (get_latest_price w sym) as [price|e]; simpl; [|done].
  apply IH, broadcast_agree; [by apply maps_agree_read|].
  intros c s. by apply snapshot_of_agreeing.
Qed.

(** A connection whose send failed is nowhere afterwards. *)
Lemma broadcast_forgotten sym payload conns r c :
  forgotten c r → forgotten c (broadcast w sym payload conns r).1.
Proof.
  revert r. induction conns as [|ws conns IH]; intros r Hc; simpl; [done|].
  apply IH. destruct (returned _); [done|]. by apply forgotten_remove_dead.
Qed.

Lemma poll_symbols_forgotten n symbols r c :
  forgotten c r → forgotten c (poll_symbols w n symbols r).1.1.
Proof.
  revert n r. induction symbols as [|sym rest IH]; intros n r Hc; simpl; [done|].
  destruct (get_latest_price w sym) as [price|e]; simpl; [|done].
  by apply IH, broadcast_forgotten, forgotten_read.
Qed.

Lemma broadcast_forgets sym payload conns r c :
  (∀ c' s, c' ∈ conns → c' ∈ subscribers r s → s = sym) →
  c ∈ failed_sends (broadcast w sym payload conns r).2 →
  forgotten c (broadcast w sym payload conns r).1.
Proof.
  revert r. induction conns as [|ws conns IH]; intros r Hfresh; simpl.
  - by intros ?%elem_of_nil.
  - destruct (returned (send_text w ws payload)); simpl.
    + apply IH. intros c' s Hc'. apply Hfresh. by right.
    + intros [->|Hin]%elem_of_cons.
      * apply broadcast_forgotten, remove_dead_forgets. intros s. apply Hfresh. left.
      * apply IH; [|done].
        intros c' s Hc' [Hs _]%elem_of_subscribers_remove_dead.
        eapply Hfresh; [by right | done].
Qed.

Lemma poll_symbols_forgets n symbols r c :
  maps_agree r →
  c ∈ failed_sends (poll_symbols w n symbols r).1.2 →
  forgotten c (poll_symbols w n symbols r).1.1.
Proof.
  revert n r. induction symbols as [|sym rest IH]; intros n r Hagree; simpl.
  - by intros ?%elem_of_nil.
  - destruct (get_latest_price w sym) as [price|e]; simpl; [|by intros ?%elem_of_nil].
    rewrite failed_sends_app. intros [Hin|Hin]%elem_of_app.
    + apply poll_symbols_forgotten, broadcast_forgets; [|done].
      intros c' s. by apply snapshot_of_agreeing.
    + apply IH; [|done]. apply broadcast_agree; [by apply maps_agree_read|].
      intros c' s. by apply snapshot_of_agreeing.
Qed.

(** An exception of the quote helper ends the tick. *)
Lemma poll_symbols_abort n pre sym post r e :
  (∀ s, s ∈ pre → returned (get_latest_price w s) = true) →
  get_latest_price w sym = Raised e →
  (poll_symbols w n (pre ++ sym :: post) r).2 = Some e
  ∧ fetches (poll_symbols w n (pre ++ sym :: post) r).1.2 = (pre ++ [sym])%list
  ∧ ∀ ws m ok, Send ws m ok ∈ (poll_symbols w n (pre ++ sym :: post) r).1.2 →
               ∃ s, s ∈ pre ∧ price_symbol m = Some s.
Proof.
  intros Hpre Hsym. revert n r.
  induction pre as [|s0 pre IH]; intros n r; simpl.
  - rewrite Hsym. simpl. split_and!; [done..|].
    intros ws m ok [?|?%elem_of_nil]%elem_of_cons; done.
  - pose proof (Hpre s0 ltac:(left)) as Hs0.
    destruct (get_latest_price w s0) as [p0|e0]; [|done]. simpl.
    edestruct IH as (Hexn & Hfetch & Hsends).
    { intros s Hs. apply Hpre. by right. }
    split_and!.
    + apply Hexn.
    + rewrite fetches_app, fetches_broadcast. simpl. f_equal. apply Hfetch.
    + intros ws m ok [?|[Hin|Hin]%elem_of_app]%elem_of_cons; [done| |].
      * apply broadcast_events in Hin as (c & _ & ?). simplify_eq.
        exists s0. split; [left | done].
      * destruct (Hsends _ _ _ Hin) as (s & ? & ?). exists s. split; [by right | done].
Qed.

End tick_effects.

Lemma demo_registry_agree : maps_agree demo_registry.
Proof.
  apply (serial_run_consistent
           [Connect ws2; Receive ws2 (command "MSFT") sent_ok;
            Connect ws1; Receive ws1 (command "AAPL") sent_ok]
           (mkSystem demo_registry {[ws1 := Open; ws2 := Open]} Sleeping)).
  - vm_compute. reflexivity.
  - apply alive_all, (bool_decide_unpack _). vm_compute. exact I.
Qed.

Lemma lossy_failed_sends : failed_sends (poll_once lossy_world demo_registry).1.2 = [ws2].
Proof. vm_compute. reflexivity. Qed.

(** X5. A tick sends nothing but price updates, each to a connection that
    was in the set of the update's symbol when the tick began, with the price
    that the helper returned for that symbol: a connection receives no update
    about a symbol it is not subscribed to. *)
Theorem tick_sends_only_to_subscribers (w : World) (r : Registry) (ws : WebSocket)
    (m : message) (ok : bool) :
  Send ws m ok ∈ (poll_once w r).1.2 →
  ∃ sym price ts,
    m = PriceUpdate sym price ts
    ∧ get_latest_price w sym = Returned price
    ∧ ws ∈ subscribers r sym
    ∧ ok = returned (send_text w ws m).
Proof.
  rewrite poll_once_eq.
  intros (sym & price & ts & _ & ? & ? & ? & ?)%poll_symbols_send_subscriber.
  by exists sym, price, ts.
Qed.

Lemma tick_sends_only_to_subscribers_witness :
  ∃ sym price ts,
    PriceUpdate "AAPL" (Some 150.25%float) 1700000001 = PriceUpdate sym price ts
    ∧ get_latest_price demo_world sym = Returned price
    ∧ ws1 ∈ subscribers demo_registry sym
    ∧ true = returned (send_text demo_world ws1 (PriceUpdate "AAPL" (Some 150.25%float) 1700000001)).
Proof.
  apply (tick_sends_only_to_subscribers demo_world demo_registry ws1 _ true).
  assert ((poll_once demo_world demo_registry).1.2
          = [Fetch "MSFT"; Send ws2 (PriceUpdate "MSFT" None 1700000000) true;
             Fetch "AAPL"; Send ws1 (PriceUpdate "AAPL" (Some 150.25%float) 1700000001) true])
    as -> by (vm_compute; reflexivity).
  do 3 right. left.
Defined.

(** X6. When no connection is in the sets of two symbols, a tick sends each
    connection at most one message. *)
Theorem tick_at_most_one_message (w : World) (r : Registry) (c : WebSocket) :
  at_most_one_symbol r →
  (length (sends_to c (poll_once w r).1.2) ≤ 1)%nat.
Proof.
  intros Hone. rewrite poll_once_eq. by apply sends_to_poll_symbols; [apply NoDup_keys|].
Qed.

Lemma tick_at_most_one_message_witness :
  (length (sends_to ws1 (poll_once demo_world demo_registry).1.2) ≤ 1)%nat.
Proof.
  apply tick_at_most_one_message, maps_agree_at_most_one, demo_registry_agree.
Defined.

(** X7. A tick leaves the keys of [subscriptions] as they are: it adds none
    (every symbol it indexes is a key already) and it removes none, not even
    the key of a set that its failed sends have emptied. *)
Theorem tick_keeps_keys (w : World) (r : Registry) :
  dom (subscriptions (poll_once w r).1.1) = dom (subscriptions r)
  ∧ keys (poll_once w r).1.1 = keys r.
Proof.
  assert (dom (subscriptions (poll_once w r).1.1) = dom (subscriptions r)) as Hdom.
  { rewrite poll_once_eq. apply poll_symbols_keys. intros sym. by rewrite elem_of_keys. }
  split; [done|]. unfold keys. by rewrite Hdom.
Qed.

(** X8. A tick that no handler interrupts keeps the two maps in agreement. *)
Theorem tick_preserves_agreement (w : World) (r : Registry) :
  maps_agree r → consistent (poll_once w r).1.1.
Proof.
  intros Hagree.
  assert (maps_agree (poll_once w r).1.1) as Hafter
    by (rewrite poll_once_eq; by apply poll_symbols_agree).
  split; [by apply maps_agree_at_most_one | done].
Qed.

Lemma tick_preserves_agreement_witness :
  consistent (poll_once lossy_world demo_registry).1.1.
Proof. apply tick_preserves_agreement, demo_registry_agree. Defined.

(** X9. In a tick that no handler interrupts, started with the two maps in
    agreement, a connection to which a send failed is gone afterwards: it has
    no entry in [ws_to_symbol] and is in no symbol's set. *)
Theorem failed_send_forgets_connection (w : World) (r : Registry) (ws : WebSocket) :
  maps_agree r →
  ws ∈ failed_sends (poll_once w r).1.2 →
  forgotten ws (poll_once w r).1.1.
Proof.
  intros Hagree. rewrite poll_once_eq. by apply poll_symbols_forgets.
Qed.

Lemma failed_send_forgets_connection_witness :
  forgotten ws2 (poll_once lossy_world demo_registry).1.1.
Proof.
  apply failed_send_forgets_connection.
  - apply demo_registry_agree.
  - rewrite lossy_failed_sends. left.
Defined.

(** X10. A connection to which no send of the tick failed keeps its entry of
    [ws_to_symbol] and its memberships, whatever happened to the others. *)
Theorem tick_spares_live_connections (w : World) (r : Registry) (c : WebSocket) :
  c ∉ failed_sends (poll_once w r).1.2 →
  untouched c r (poll_once w r).1.1.
Proof.
  rewrite poll_once_eq. apply poll_symbols_untouched.
Qed.

Lemma tick_spares_live_connections_witness :
  untouched ws1 demo_registry (poll_once lossy_world demo_registry).1.1.
Proof.
  apply tick_spares_live_connections. rewrite lossy_failed_sends.
  intros [?|?%elem_of_nil]%elem_of_cons; done.
Defined.

(** X11. An exception that escapes the quote helper for one symbol ends the
    tick: the symbols after it in the snapshot are not fetched, and no
    message about them or about the failing symbol is sent. *)
Theorem exception_aborts_tick (w : World) (r : Registry) (pre post : list string)
    (sym : string) (e : exn) :
  keys r = (pre ++ sym :: post)%list →
  (∀ s, s ∈ pre → returned (get_latest_price w s) = true) →
  get_latest_price w sym = Raised e →
  (poll_once w r).2 = Some e
  ∧ fetches (poll_once w r).1.2 = (pre ++ [sym])%list
  ∧ (∀ s, s ∈ post → s ∉ fetches (poll_once w r).1.2)
  ∧ (∀ s ws m ok, s ∈ sym :: post → Send ws m ok ∈ (poll_once w r).1.2 →
                  price_symbol m ≠ Some s).
Proof.
  intros Hkeys Hpre Hsym.
  pose proof (NoDup_keys r) as Hnd. rewrite Hkeys in Hnd.
  apply NoDup_app in Hnd as (_ & Hdisj & [Hsym_post _]%NoDup_cons).
  rewrite poll_once_eq, Hkeys.
  destruct (poll_symbols_abort w 0 pre sym post r e Hpre Hsym) as (Hexn & Hfetch & Hsends).
  split_and!; [done..| |].
  - intros s Hpost. rewrite Hfetch.
    intros [Hin| ->%list_elem_of_singleton]%elem_of_app; [|done].
    apply (Hdisj s Hin). by right.
  - intros s ws m ok Hs (s' & Hs' & Heq)%Hsends. rewrite Heq. intros [= ->].
    by apply (Hdisj s Hs').
Qed.

Lemma exception_aborts_tick_witness :
  (poll_once demo_world starved_registry).2 = Some (Exception "ValueError")
  ∧ fetches (poll_once demo_world starved_registry).1.2 = ([] ++ ["GOOG"])%list
  ∧ (∀ s, s ∈ ["AAPL"] → s ∉ fetches (poll_once demo_world starved_registry).1.2)
  ∧ (∀ s ws m ok, s ∈ ["GOOG"; "AAPL"] →
                  Send ws m ok ∈ (poll_once demo_world starved_registry).1.2 →
                  price_symbol m ≠ Some s).
Proof.
  apply (exception_aborts_tick demo_world starved_registry [] ["AAPL"] "GOOG").
  - vm_compute. reflexivity.
  - by intros s ?%elem_of_nil.
  - reflexivity.
Defined.

(** ** After a disconnect *)

Section after_disconnect.
Implicit Types (r : Registry) (ws c : WebSocket) (sym s : string) (σ : System).

Lemma step_serial_disconnected a σ σ' :
  step_serial a σ = Some σ' → invariant σ →
  (∀ c, sessions σ !! c = Some Disconnected → forgotten c (registry σ)) →
  ∀ c, sessions σ' !! c = Some Disconnected → forgotten c (registry σ').
Proof.
  unfold step_serial. intros Hstep (Hmir & _ & Hne & _ & _) Hgone.
  destruct (of_session a && is_sending (poll σ)); [done|].
  destruct a as [ws|ws rx sent| |[price|e] now|sent]; simpl in Hstep.
  - destruct (sessions σ !! ws) eqn:Hws; simplify_eq. simpl.
    intros c Hc. destruct (decide (c = ws)) as [->|Hcws].
    + by rewrite lookup_insert_eq in Hc.
    + rewrite lookup_insert_ne in Hc by done. apply forgotten_accept; auto.
  - destruct (sessions σ !! ws) as [[| |]|] eqn:Hws; simplify_eq. simpl.
    intros c Hc. destruct (decide (c = ws)) as [->|Hcws].
    + rewrite lookup_insert_eq in Hc.
      destruct (session_step_outcome rx sent ws (registry σ))
        as [(e & Hst & _)|(r1 & Hr1 & ->)]; [congruence|].
      assert (member_is_recorded r1 ∧ no_empty_symbol r1) as [Hmir1 Hne1].
      { destruct Hr1 as [->|(sym & Hsym & ->)]; [done|].
        split; [by apply member_is_recorded_subscribe | by apply no_empty_symbol_subscribe]. }
      simplify_eq. rewrite Hc. by apply disconnect_forgets.
    + rewrite lookup_insert_ne in Hc by done. apply session_step_forgotten; auto.
  - destruct (poll σ); simplify_eq. done.
  - destruct (poll σ) as [|sym rest|]; simplify_eq. simpl.
    intros c Hc. by apply forgotten_read, Hgone.
  - destruct (poll σ) as [|sym rest|]; simplify_eq. done.
  - destruct (poll σ) as [| |sym payload ws conns rest]; simplify_eq. simpl.
    intros c Hc. destruct (returned sent); [by apply Hgone|].
    by apply forgotten_remove_dead, Hgone.
Qed.

Lemma run_serial_disconnected acts σ σ' :
  run_serial acts σ = Some σ' → invariant σ →
  (∀ c, sessions σ !! c = Some Disconnected → forgotten c (registry σ)) →
  ∀ c, sessions σ' !! c = Some Disconnected → forgotten c (registry σ').
Proof.
  revert σ. induction acts as [|a acts IH]; intros σ Hrun Hinv Hgone; simpl in Hrun.
  - by simplify_eq.
  - destruct (step_serial a σ) as [σ1|] eqn:Hstep; [|done].
    eapply IH; [done | by eapply step_serial_invariant | by eapply step_serial_disconnected].
Qed.

End after_disconnect.

(** X12. In every state reached without resuming a handler in the middle of
    a broadcast, a connection whose handler has left through the
    [except WebSocketDisconnect] clause has no entry in [ws_to_symbol] and is
    in no symbol's set. *)
Theorem disconnected_is_forgotten (acts : list action) (σ : System) (ws : WebSocket) :
  run_serial acts initial = Some σ →
  sessions σ !! ws = Some Disconnected →
  forgotten ws (registry σ).
Proof.
  intros Hrun. eapply run_serial_disconnected; [done | apply invariant_initial |].
  intros c Hc. simpl in Hc. by rewrite lookup_empty in Hc.
Qed.

Lemma disconnected_is_forgotten_witness : forgotten ws1 (registry after_come_and_go).
Proof.
  apply (disconnected_is_forgotten come_and_go); vm_compute; reflexivity.
Defined.

(** ** What every run keeps *)

Section every_run.
Implicit Types (r : Registry) (ws c : WebSocket) (sym s : string) (σ : System).

Lemma step_sound a σ σ' :
  step a σ = Some σ' →
  recorded_is_member σ ∧ no_empty_symbol (registry σ)
  ∧ (∀ c, sessions σ !! c = None → forgotten c (registry σ)) →
  recorded_is_member σ' ∧ no_empty_symbol (registry σ')
  ∧ (∀ c, sessions σ' !! c = None → forgotten c (registry σ')).
Proof.
  intros Hstep (Hrim & Hne & Hnew).
  destruct a as [ws|ws rx sent| |[price|e] now|sent]; simpl in Hstep.
  - destruct (sessions σ !! ws) eqn:Hws; simplify_eq. split_and!; simpl.
    + intros c s Halive. simpl. rewrite get_insert, subscribers_accept.
      case_decide as Hc; [done|]. apply Hrim.
      intros st Hst. apply Halive. simpl. by rewrite lookup_insert_ne.
    + by apply no_empty_symbol_accept.
    + intros c Hc. apply lookup_insert_None in Hc as [Hc ?].
      apply forgotten_accept; auto.
  - destruct (sessions σ !! ws) as [[| |]|] eqn:Hws; simplify_eq. split_and!; simpl.
    + by apply session_step_recorded.
    + by apply session_step_no_empty.
    + intros c Hc. apply lookup_insert_None in Hc as [Hc ?].
      apply session_step_forgotten; auto.
  - destruct (poll σ); simplify_eq. split_and!; [exact Hrim | done | done].
  - destruct (poll σ) as [|sym rest|]; simplify_eq. split_and!; simpl.
    + intros c s Halive Hget. simpl. rewrite subscribers_read. by apply Hrim.
    + done.
    + intros c Hc. by apply forgotten_read, Hnew.
  - destruct (poll σ) as [|sym rest|]; simplify_eq. split_and!; [exact Hrim | done | done].
  - destruct (poll σ) as [| |sym payload ws conns rest]; simplify_eq.
    destruct (returned sent); split_and!; simpl.
    + exact Hrim.
    + done.
    + done.
    + intros c s Halive. simpl. rewrite get_delete. case_decide as Hc; [done|].
      intros Hget. destruct (Hrim c s Halive Hget) as [? Hin]. split; [done|].
      apply elem_of_subscribers_remove_dead. split; [done|]. by intros [_ ->].
    + by eapply no_empty_symbol_delete.
    + intros c Hc. by apply forgotten_remove_dead, Hnew.
Qed.

Lemma run_sound acts σ σ' :
  run acts σ = Some σ' →
  recorded_is_member σ ∧ no_empty_symbol (registry σ)
  ∧ (∀ c, sessions σ !! c = None → forgotten c (registry σ)) →
  recorded_is_member σ' ∧ no_empty_symbol (registry σ')
  ∧ (∀ c, sessions σ' !! c = None → forgotten c (registry σ')).
Proof.
  revert σ. induction acts as [|a acts IH]; intros σ Hrun Hinv; simpl in Hrun.
  - by simplify_eq.
  - destruct (step a σ) as [σ1|] eqn:Hstep; [|done].
    eapply IH; [done|]. by eapply step_sound.
Qed.

End every_run.

(** X13. In every reachable state of the process, however handlers and poll
    loop interleave: a symbol recorded in [ws_to_symbol] for a connection
    whose handler has not died is not empty and the connection is in that
    symbol's set; no entry of [ws_to_symbol] holds the empty string; and a
    connection that never connected is nowhere in the registry. A handler
    that dies may leave an entry that is not true of the sets. *)
Theorem recorded_symbol_is_subscribed (σ : System) :
  reachable σ →
  recorded_is_member σ
  ∧ no_empty_symbol (registry σ)
  ∧ ∀ c, sessions σ !! c = None → forgotten c (registry σ).
Proof.
  intros [acts Hrun]. eapply run_sound; [done|].
  destruct invariant_initial as (_ & ? & ? & ? & _). by split_and!.
Qed.

Lemma recorded_symbol_is_subscribed_witness :
  recorded_is_member after_switch
  ∧ no_empty_symbol (registry after_switch)
  ∧ ∀ c, sessions after_switch !! c = None → forgotten c (registry after_switch).
Proof.
  apply recorded_symbol_is_subscribed.
  exists switch_during_broadcast. vm_compute. reflexivity.
Defined.

(** ** Runs without a stale snapshot, as a whole *)



(** ** Where a price comes from *)

(** X15. A price that the helper returns is the last close of a non-empty
    intraday frame; or, when the intraday request gave no price, a
    [currentPrice] that is not zero; or, when [currentPrice] is missing or
    zero, the [regularMarketPrice]. *)
Theorem price_comes_from_provider (Ticker : string → result yf.Ticker) (symbol : string)
    (p : float) :
  get_latest_price_sync Ticker symbol = Returned (Some p) →
  ∃ ticker, Ticker symbol = Returned ticker
    ∧ ((∃ df, yf.history ticker = Returned df ∧ yf.is_empty df = false
              ∧ yf.last_close df = Returned p)
       ∨ (intraday_price ticker = None
          ∧ ∃ i, yf.info ticker = Returned i
                 ∧ ((yf.currentPrice i = Some p ∧ (p =? 0)%float = false)
                    ∨ (number_truthy (yf.currentPrice i) = false
                       ∧ yf.regularMarketPrice i = Some p)))).
Proof.
  unfold get_latest_price_sync.
  destruct (Ticker symbol) as [ticker|e]; [|done].
  intros Hprice. exists ticker. split; [done|].
  destruct (intraday_price ticker) as [p0|] eqn:Hintra.
  - left. unfold intraday_price in Hintra.
    destruct (yf.history ticker) as [df|e]; [|done]. exists df.
    destruct (yf.is_empty df); [done|]. simpl in Hintra.
    destruct (yf.last_close df) as [p1|e]; [|done]. by simplify_eq.
  - right. split; [done|]. unfold info_price in Hprice.
    destruct (yf.info ticker) as [i|e]; [|done]. exists i. split; [done|].
    unfold py_or in Hprice.
    destruct (number_truthy (yf.currentPrice i)) eqn:Hcur.
    + left. destruct (yf.currentPrice i) as [c|]; [|done].
      simpl in *. simplify_eq. split; [done|]. by apply negb_true_iff.
    + right. split; [done|].
      destruct (yf.regularMarketPrice i) as [m|]; [|done]. simpl in Hprice. by simplify_eq.
Qed.

Lemma price_comes_from_provider_witness :
  ∃ ticker, demo_Ticker "AAPL" = Returned ticker
    ∧ ((∃ df, yf.history ticker = Returned df ∧ yf.is_empty df = false
              ∧ yf.last_close df = Returned 150.25%float)
       ∨ (intraday_price ticker = None
          ∧ ∃ i, yf.info ticker = Returned i
                 ∧ ((yf.currentPrice i = Some 150.25%float ∧ (150.25 =? 0)%float = false)
                    ∨ (number_truthy (yf.currentPrice i) = false
                       ∧ yf.regularMarketPrice i = Some 150.25%float)))).
Proof. apply price_comes_from_provider. reflexivity. Defined.

(** X16. The helper returns [None] exactly when the ticker object could be
    built, the intraday request failed or came back empty or its last close
    could not be read, and [info] failed or holds no [regularMarketPrice]
    beside a [currentPrice] that is missing or zero. *)
Theorem no_price_exactly_when (Ticker : string → result yf.Ticker) (symbol : string) :
  get_latest_price_sync Ticker symbol = Returned None
  ↔ ∃ ticker, Ticker symbol = Returned ticker
      ∧ ((∃ e, yf.history ticker = Raised e)
         ∨ ∃ df, yf.history ticker = Returned df
                 ∧ (yf.is_empty df = true ∨ ∃ e, yf.last_close df = Raised e))
      ∧ ((∃ e, yf.info ticker = Raised e)
         ∨ ∃ i, yf.info ticker = Returned i
                ∧ number_truthy (yf.currentPrice i) = false
                ∧ yf.regularMarketPrice i = None).
Proof.
  unfold get_latest_price_sync, intraday_price, info_price, py_or.
  destruct (Ticker symbol) as [ticker|e0].
  - split.
    + intros Hnone. exists ticker. split; [done|].
      destruct (yf.history ticker) as [df|e], (yf.info ticker) as [i|e'].
      * destruct (yf.is_empty df) eqn:Hempty; simpl in Hnone.
        -- split; [right; exists df; auto|]. right. exists i. split; [done|].
           destruct (number_truthy (yf.currentPrice i)) eqn:Hcur.
           ++ by destruct (yf.currentPrice i).
           ++ split; [done|]. by destruct (yf.regularMarketPrice i).
        -- destruct (yf.last_close df) as [p|e] eqn:Hclose; [done|].
           split; [right; exists df; eauto|]. right. exists i. split; [done|].
           destruct (number_truthy (yf.currentPrice i)) eqn:Hcur.
           ++ by destruct (yf.currentPrice i).
           ++ split; [done|]. by destruct (yf.regularMarketPrice i).
      * split; [|left; by exists e'].
        right. exists df. split; [done|].
        destruct (yf.is_empty df); [by left|]. simpl in Hnone.
        destruct (yf.last_close df) as [p|e]; [done|]. right. by exists e.
      * split; [left; by exists e|]. right. exists i. split; [done|].
        destruct (number_truthy (yf.currentPrice i)) eqn:Hcur.
        -- by destruct (yf.currentPrice i).
        -- split; [done|]. by destruct (yf.regularMarketPrice i).
      * split; [left; by exists e | left; by exists e'].
    + intros (t & [= <-] & Hintra & Hinfo).
      assert (match yf.info ticker with
              | Returned i =>
                  match to_float (if number_truthy (yf.currentPrice i)
                                  then yf.currentPrice i else yf.regularMarketPrice i) with
                  | Returned p => Some p
                  | Raised _ => None
                  end
              | Raised _ => None
              end = None) as ->.
      { destruct Hinfo as [[e ->]|(i & -> & -> & ->)]; done. }
      destruct Hintra as [[e ->]|(df & -> & [->|[e ->]])]; [done..|].
      by destruct (yf.is_empty df).
  - split; [done|]. by intros (t & ? & _).
Qed.

(** ** The analytics endpoint *)

(** X17. The analytics endpoint never lets an exception through: it answers
    with an error exactly when the history request raised, the text being
    that of the exception, or when the history has no row left after
    [dropna()], the text then naming the symbol. *)
Theorem get_analytics_error (num : pd.Numeric) (daily : string → Z → result (list pd.Row))
    (symbol : string) (period_days : Z) (msg : string) :
  get_analytics num daily symbol period_days = AnalyticsError msg
  ↔ (∃ e, daily symbol period_days = Raised e ∧ msg = str e)
    ∨ (daily symbol period_days = Returned []
       ∧ msg = "No historical data available for symbol: " ++ symbol).
Proof.
  unfold get_analytics, compute_analytics_sync.
  destruct (daily symbol period_days) as [[|row rows]|e]; simpl.
  - split; [intros [= <-]; by right|].
    intros [(e & ? & _)|[_ ->]]; done.
  - split; [done|]. intros [(e & ? & _)|[? _]]; done.
  - split.
    + intros [= <-]. left. by exists e.
    + intros [(e' & [= <-] & ->)|[? _]]; done.
Qed.

(** X18. When the history has rows, the endpoint answers with the analytics
    of the symbol asked for: one label and one price per row, the short
    moving average exactly from five rows on and the long one exactly from
    twenty rows on, so that the long one is never there without the short
    one; and the percent change is left out exactly when the first close is
    zero, the case in which it would divide by zero. *)
Theorem analytics_shape (num : pd.Numeric) (daily : string → Z → result (list pd.Row))
    (symbol : string) (period_days : Z) (hist : list pd.Row) :
  daily symbol period_days = Returned hist → hist ≠ [] →
  ∃ a, get_analytics num daily symbol period_days = AnalyticsOk a
       ∧ a_symbol a = symbol
       ∧ history_labels a = map pd.label hist
       ∧ length (history_prices a) = length hist
       ∧ (is_Some (ma_short a) ↔ (5 ≤ length hist)%nat)
       ∧ (is_Some (ma_long a) ↔ (20 ≤ length hist)%nat)
       ∧ (is_Some (ma_long a) → is_Some (ma_short a))
       ∧ (percent_change_period a = None
          ↔ ∃ row, head hist = Some row ∧ (pd.Close row =? 0)%float = true).
Proof.
  intros Hdaily Hrows. unfold get_analytics, compute_analytics_sync. rewrite Hdaily.
  destruct hist as [|row rows]; [done|].
  eexists. split; [reflexivity|].
  cbn [a_symbol history_labels history_prices ma_short ma_long percent_change_period].
  rewrite !length_map.
  assert (∀ (P : Prop) `{Decision P} (x : float),
            is_Some (pd.round num 4 <$> (if bool_decide P then Some x else None)) ↔ P) as Hsome.
  { intros P ? x. case_bool_decide; simpl.
    - split; [done | by eexists].
    - split; [by intros [? ?] | done]. }
  split_and!; [done | done | done | apply Hsome | apply Hsome | |].
  - rewrite !Hsome. lia.
  - rewrite bool_decide_eq_true_2 by (simpl; lia). simpl.
    destruct (pd.Close row =? 0)%float eqn:Hzero; simpl.
    + split; [by exists row | done].
    + split; [done|]. intros (row' & [= <-] & ?). congruence.
Qed.

Lemma analytics_shape_witness :
  ∃ a, get_analytics demo_numeric demo_daily "AAPL" 60 = AnalyticsOk a
       ∧ a_symbol a = "AAPL"
       ∧ history_labels a = map pd.label week
       ∧ length (history_prices a) = length week
       ∧ (is_Some (ma_short a) ↔ (5 ≤ length week)%nat)
       ∧ (is_Some (ma_long a) ↔ (20 ≤ length week)%nat)
       ∧ (is_Some (ma_long a) → is_Some (ma_short a))
       ∧ (percent_change_period a = None
          ↔ ∃ row, head week = Some row ∧ (pd.Close row =? 0)%float = true).
Proof. apply analytics_shape; done. Defined.

(** ** Subscriptions of different connections *)

Section two_connections.
Implicit Types (r : Registry) (ws c : WebSocket) (sym s : string).

Lemma dom_subscribe_eq ws sym r :
  dom (subscriptions (subscribe ws sym r))
  = {[sym]} ∪ (match get ws (ws_to_symbol r) with
               | Some p => if truthy (Some p) then {[p]} else ∅
               | None => ∅
               end) ∪ dom (subscriptions r).
Proof.
  unfold subscribe. cbn [subscriptions]. rewrite dom_add.
  destruct (get ws (ws_to_symbol r)) as [p|].
  - destruct (truthy (Some p)).
    + rewrite dom_discard. set_solver.
    + set_solver.
  - set_solver.
Qed.

End two_connections.

(** X19. Subscriptions of two different connections do not interfere: in
    whichever order the two commands are handled, every symbol has the same
    set of subscribers, every connection the same entry of [ws_to_symbol],
    and [subscriptions] the same keys. *)
Theorem subscribe_commute (c1 c2 : WebSocket) (s1 s2 : string) (r : Registry) :
  c1 ≠ c2 →
  (∀ s, subscribers (subscribe c1 s1 (subscribe c2 s2 r)) s
        = subscribers (subscribe c2 s2 (subscribe c1 s1 r)) s)
  ∧ ws_to_symbol (subscribe c1 s1 (subscribe c2 s2 r))
    = ws_to_symbol (subscribe c2 s2 (subscribe c1 s1 r))
  ∧ dom (subscriptions (subscribe c1 s1 (subscribe c2 s2 r)))
    = dom (subscriptions (subscribe c2 s2 (subscribe c1 s1 r))).
Proof.
  intros Hne. split_and!.
  - intros s. apply set_eq. intros c.
    rewrite !elem_of_subscribers_subscribe, !get_subscribe.
    rewrite !decide_False by done. naive_solver.
  - unfold subscribe. simpl. by apply insert_insert_ne.
  - rewrite !dom_subscribe_eq, !get_subscribe, !decide_False by done. set_solver.
Qed.

Lemma subscribe_commute_witness :
  (∀ s, subscribers (subscribe ws1 "AAPL" (subscribe ws2 "MSFT" demo_registry)) s
        = subscribers (subscribe ws2 "MSFT" (subscribe ws1 "AAPL" demo_registry)) s)
  ∧ ws_to_symbol (subscribe ws1 "AAPL" (subscribe ws2 "MSFT" demo_registry))
    = ws_to_symbol (subscribe ws2 "MSFT" (subscribe ws1 "AAPL" demo_registry))
  ∧ dom (subscriptions (subscribe ws1 "AAPL" (subscribe ws2 "MSFT" demo_registry)))
    = dom (subscriptions (subscribe ws2 "MSFT" (subscribe ws1 "AAPL" demo_registry))).
Proof. apply subscribe_commute. done. Defined.

(** ** From a subscription to the updates *)

Lemma demo_registry_no_empty : no_empty_symbol demo_registry.
Proof.
  pose proof (run_serial_invariant
                [Connect ws2; Receive ws2 (command "MSFT") sent_ok;
                 Connect ws1; Receive ws1 (command "AAPL") sent_ok]
                initial
                (mkSystem demo_registry {[ws1 := Open; ws2 := Open]} Sleeping)) as H.
  destruct H as (_ & _ & H & _); [vm_compute; reflexivity | apply invariant_initial | exact H].
Qed.

(** X20. A subscribe command with a non-empty symbol is acknowledged, and
    in the next tick in which the helper returns for every symbol of the
    snapshot, the connection is sent the update of its symbol, with the price
    that the helper returned. *)
Theorem subscriber_is_served (w : World) (r : Registry) (ws : WebSocket) (sym : string)
    (price : option float) :
  sym ≠ "" →
  (∀ s, s ∈ keys (subscribe ws sym r) → returned (get_latest_price w s) = true) →
  get_latest_price w sym = Returned price →
  session_step (command sym) sent_ok ws r = (subscribe ws sym r, [Subscribed sym], Open)
  ∧ ∃ ts, Send ws (PriceUpdate sym price ts)
            (returned (send_text w ws (PriceUpdate sym price ts)))
          ∈ (poll_once w (subscribe ws sym r)).1.2.
Proof.
  intros Hsym Hall Hprice. split.
  - unfold command, session_step. by rewrite on_text_subscribe.
  - destruct (poll_once_delivers w (subscribe ws sym r) sym price Hall Hprice) as [ts Hts].
    exists ts. apply Hts, elem_of_subscribers_subscribe. by left.
Qed.

Lemma subscriber_is_served_witness :
  session_step (command "AAPL") sent_ok ws1 lone_subscriber
  = (subscribe ws1 "AAPL" lone_subscriber, [Subscribed "AAPL"], Open)
  ∧ ∃ ts, Send ws1 (PriceUpdate "AAPL" (Some 150.25%float) ts)
            (returned (send_text demo_world ws1 (PriceUpdate "AAPL" (Some 150.25%float) ts)))
          ∈ (poll_once demo_world (subscribe ws1 "AAPL" lone_subscriber)).1.2.
Proof.
  apply subscriber_is_served.
  - done.
  - assert (keys (subscribe ws1 "AAPL" lone_subscriber) = ["MSFT"; "AAPL"]) as ->
      by (vm_compute; reflexivity).
    intros s [->|[->|[]%elem_of_nil]%elem_of_cons]%elem_of_cons; reflexivity.
  - reflexivity.
Defined.

(** X21. After a connection has switched to another symbol, with the two
    maps in agreement before, every message that the next tick sends to it is
    about the new symbol: the updates of the symbol it left have stopped. *)
Theorem switched_connection_gets_new_symbol_only (w : World) (r : Registry)
    (ws : WebSocket) (B : string) (m : message) (ok : bool) :
  maps_agree r → no_empty_symbol r →
  Send ws m ok ∈ (poll_once w (subscribe ws B r)).1.2 →
  price_symbol m = Some B.
Proof.
  intros Hagree Hne. rewrite poll_once_eq.
  intros (sym & price & ts & _ & -> & _ & Hin & _)%poll_symbols_send_subscriber.
  pose proof (maps_agree_subscribe ws B r Hagree Hne) as Hagree'.
  apply (maps_agree_elem _ _ _ Hagree') in Hin.
  rewrite get_subscribe, decide_True in Hin by done. simpl. congruence.
Qed.

Lemma switched_connection_gets_new_symbol_only_witness :
  price_symbol (PriceUpdate "MSFT" None 1700000000) = Some "MSFT".
Proof.
  apply (switched_connection_gets_new_symbol_only demo_world demo_registry ws1 "MSFT" _ true).
  - apply demo_registry_agree.
  - apply demo_registry_no_empty.
  - assert ((poll_once demo_world (subscribe ws1 "MSFT" demo_registry)).1.2
            = [Fetch "MSFT"; Send ws2 (PriceUpdate "MSFT" None 1700000000) true;
               Send ws1 (PriceUpdate "MSFT" None 1700000000) true; Fetch "AAPL"])
      as -> by (vm_compute; reflexivity).
    do 2 right. left.
Defined.

(** X22. A connection to which a send failed, in a tick started with the two
    maps in agreement, is sent nothing by the tick that follows. *)
Theorem dead_connection_not_retried (w w' : World) (r : Registry) (ws : WebSocket) :
  maps_agree r →
  ws ∈ failed_sends (poll_once w r).1.2 →
  sends_to ws (poll_once w' (poll_once w r).1.1).1.2 = [].
Proof.
  intros Hagree Hfailed.
  assert (forgotten ws (poll_once w r).1.1) as [_ Hnowhere]
    by (rewrite poll_once_eq in *; by apply poll_symbols_forgets).
  rewrite (poll_once_eq w'). apply sends_to_poll_symbols_none. intros sym _. apply Hnowhere.
Qed.

Lemma dead_connection_not_retried_witness :
  sends_to ws2 (poll_once demo_world (poll_once lossy_world demo_registry).1.1).1.2 = [].
Proof.
  apply dead_connection_not_retried.
  - apply demo_registry_agree.
  - rewrite lossy_failed_sends. left.
Defined.

(** ** A symbol that cannot be a key *)

(** X23. A subscribe command whose symbol is a non-empty array or object,
    sent by a connection that is subscribed to [A] in a registry whose maps
    agree, gets no answer and kills the handler with [TypeError]: line 264
    has taken the connection out of [A]'s set, line 267 was not reached, and
    no cleanup runs. The entry [A] stays in [ws_to_symbol] while the
    connection is in no set, so the maps disagree, and the next tick sends
    the connection nothing. *)
Theorem unhashable_symbol_kills_handler (w : World) (ws : WebSocket) (r : Registry)
    (A : string) (sent : result unit) :
  maps_agree r → get ws (ws_to_symbol r) = Some A → A ≠ "" →
  session_step (Text (ObjectUnhashable (Some "subscribe"))) sent ws r
  = (discard_prev ws r, [], Died (Exception "TypeError"))
  ∧ get ws (ws_to_symbol (discard_prev ws r)) = Some A
  ∧ (∀ s, ws ∉ subscribers (discard_prev ws r) s)
  ∧ ¬ maps_agree (discard_prev ws r)
  ∧ sends_to ws (poll_once w (discard_prev ws r)).1.2 = [].
Proof.
  intros Hagree Hget HA.
  assert (get ws (ws_to_symbol (discard_prev ws r)) = Some A) as Hkept
    by (by rewrite ws_to_symbol_discard_prev).
  assert (∀ s, ws ∉ subscribers (discard_prev ws r) s) as Hnowhere.
  { intros s [Hin Hnot]%elem_of_subscribers_discard_prev. apply Hnot.
    apply (maps_agree_elem _ _ _ Hagree) in Hin. split_and!; congruence. }
  split_and!; [done | done | done | |].
  - intros Hagree'. specialize (Hagree' ws). rewrite Hkept in Hagree'.
    destruct Hagree' as [Hin _]. by apply Hnowhere in Hin.
  - rewrite poll_once_eq. apply sends_to_poll_symbols_none. intros sym _. apply Hnowhere.
Qed.

Lemma unhashable_symbol_kills_handler_witness :
  session_step (Text (ObjectUnhashable (Some "subscribe"))) sent_ok ws1 demo_registry
  = (discard_prev ws1 demo_registry, [], Died (Exception "TypeError"))
  ∧ get ws1 (ws_to_symbol (discard_prev ws1 demo_registry)) = Some "AAPL"
  ∧ (∀ s, ws1 ∉ subscribers (discard_prev ws1 demo_registry) s)
  ∧ ¬ maps_agree (discard_prev ws1 demo_registry)
  ∧ sends_to ws1 (poll_once demo_world (discard_prev ws1 demo_registry)).1.2 = [].
Proof.
  apply unhashable_symbol_kills_handler.
  - apply demo_registry_agree.
  - reflexivity.
  - done.
Defined.
